(** * POSIX compatibility shim headers of the Ruby native extension

    The two headers [native/include/strings.h] and [native/include/unistd.h]
    contain preprocessor directives only.  Their meaning is the effect they
    have on the state of the translation unit that includes them: the macro
    table, the typedef declarations that reach the compiler, the headers
    pulled in and the diagnostics raised.  Each directive is embedded as a
    function on that state and each header as the composition of its
    directives, line by line. *)

From stdpp Require Import gmap strings list.

Local Open Scope string_scope.
Local Open Scope Z_scope.
Local Open Scope list_scope.

(** ** Preprocessing tokens and macro definitions *)

Inductive token :=
  | TId (x : string)
  | TNum (n : Z)
  | TStr (s : string)
  | TPunct (p : string).

#[global] Instance token_eq_dec : EqDecision token.
Proof. solve_decision. Defined.

(** [#define x body] is object-like, [#define x(params) body] function-like. *)
Inductive macro :=
  | ObjectLike (body : list token)
  | FunctionLike (params : list string) (body : list token).

#[global] Instance macro_eq_dec : EqDecision macro.
Proof. solve_decision. Defined.

(** The integer types a typedef of [ssize_t] can name. *)
Inductive ctype :=
  | CInt | CLong | CLongLong
  | CUnsignedInt | CUnsignedLong | CUnsignedLongLong.

#[global] Instance ctype_eq_dec : EqDecision ctype.
Proof. solve_decision. Defined.

(** ** State of a translation unit *)

(** What a system header can read and change: the macro table and the
    typedef declarations seen so far (in order, duplicates kept). *)
Record env := Env {
  macros : gmap string macro;
  typedefs : list (string * ctype)
}.

Inductive inclusion :=
  | Include (h : string)
  | IncludeNext (h : string).

Inductive diagnostic :=
  | MacroRedefinition (x : string)
  | TypedefRedefinition (x : string).

Record tu_state := TU {
  tu_env : env;
  tu_included : list inclusion;
  tu_diags : list diagnostic
}.

Definition directive := tu_state → tu_state.

Definition macro_of (st : tu_state) (x : string) : option macro :=
  macros (tu_env st) !! x.

Definition defined (x : string) (st : tu_state) : bool :=
  bool_decide (is_Some (macro_of st x)).

(** The types under which a name has been declared by typedef. *)
Definition typedefs_of (x : string) (e : env) : list ctype :=
  omap (λ d, if decide (d.1 = x) then Some d.2 else None) (typedefs e).

Definition empty_env : env := Env ∅ [].
Definition empty_tu : tu_state := TU empty_env [] [].

(** ** Directives *)

(** [#define x m].  Redefining a macro with a different replacement is
    diagnosed (ISO C 6.10.3p2, warning C4005 of the Microsoft compiler); the
    new definition is the one in force afterwards. *)
Definition define (x : string) (m : macro) : directive := λ st,
  let e := tu_env st in
  let clash := match macros e !! x with
               | Some m' => if decide (m' = m) then [] else [MacroRedefinition x]
               | None => []
               end in
  TU (Env (<[x := m]> (macros e)) (typedefs e))
     (tu_included st) (tu_diags st ++ clash).

(** [typedef ty x;].  Declaring the name again with another type is
    diagnosed; an identical redeclaration is accepted. *)
Definition typedef (ty : ctype) (x : string) : directive := λ st,
  let e := tu_env st in
  let clash := if decide (Forall (λ ty', ty' = ty) (typedefs_of x e))
               then [] else [TypedefRedefinition x] in
  TU (Env (macros e) (typedefs e ++ [(x, ty)]))
     (tu_included st) (tu_diags st ++ clash).

Definition ifdef (x : string) (body : directive) : directive := λ st,
  if defined x st then body st else st.

Definition ifndef (x : string) (body : directive) : directive := λ st,
  if defined x st then st else body st.

Definition ifdef_else (x : string) (yes no : directive) : directive := λ st,
  if defined x st then yes st else no st.

Definition seq (d1 d2 : directive) : directive := λ st, d2 (d1 st).
Infix ">>>" := seq (at level 61, left associativity).

(** ** The two headers *)

Definition STRINGS_GUARD : string := "KREUZBERG_RUBY_STRINGS_H".
Definition UNISTD_GUARD : string := "KREUZBERG_RUBY_UNISTD_H".
Definition MSC_VER : string := "_MSC_VER".

Definition alias (target : string) : macro := ObjectLike [TId target].

(** Replacement list of [#define bzero(ptr, size) memset((ptr), 0, (size))]. *)
Definition bzero_macro : macro :=
  FunctionLike ["ptr"; "size"]
    [TId "memset"; TPunct "(";
       TPunct "("; TId "ptr"; TPunct ")"; TPunct ",";
       TNum 0; TPunct ",";
       TPunct "("; TId "size"; TPunct ")";
     TPunct ")"].

Definition F_OK : macro := ObjectLike [TNum 0].
Definition X_OK : macro := ObjectLike [TNum 0].
Definition W_OK : macro := ObjectLike [TNum 2].
Definition R_OK : macro := ObjectLike [TNum 4].

Section Headers.

(** The headers of the compiler and of the C runtime are not part of the
    repository.  [native h] is the effect of the system's header [h] on the
    macro table and the typedefs.  Both [#include <h>] for a name the shim
    directory does not provide and [#include_next <h>] from inside the shim
    resolve to it. *)
Variable native : string → env → env.

Definition include (h : string) : directive := λ st,
  TU (native h (tu_env st)) (tu_included st ++ [Include h]) (tu_diags st).

Definition include_next (h : string) : directive := λ st,
  TU (native h (tu_env st)) (tu_included st ++ [IncludeNext h]) (tu_diags st).

(** strings.h, lines 8-17: the branch taken under [_MSC_VER]. *)
Definition strings_msvc : directive :=
  include "ctype.h" >>>
  ifndef "strcasecmp" (define "strcasecmp" (alias "_stricmp")) >>>
  ifndef "strncasecmp" (define "strncasecmp" (alias "_strnicmp")) >>>
  ifndef "bzero" (define "bzero" bzero_macro).

(** strings.h, lines 2-20. *)
Definition strings_h : directive :=
  ifndef STRINGS_GUARD (
    define STRINGS_GUARD (ObjectLike []) >>>
    include "string.h" >>>
    ifdef MSC_VER strings_msvc).

(** unistd.h, lines 6-37: the branch taken under [_MSC_VER]. *)
Definition unistd_msvc : directive :=
  include "direct.h" >>>
  include "io.h" >>>
  include "process.h" >>>
  include "stdlib.h" >>>
  ifndef "ssize_t" (typedef CLong "ssize_t") >>>
  ifndef "F_OK" (define "F_OK" F_OK) >>>
  ifndef "X_OK" (define "X_OK" X_OK) >>>
  ifndef "W_OK" (define "W_OK" W_OK) >>>
  ifndef "R_OK" (define "R_OK" R_OK) >>>
  define "access" (alias "_access") >>>
  define "dup2" (alias "_dup2") >>>
  define "fileno" (alias "_fileno") >>>
  define "getpid" (alias "_getpid") >>>
  define "isatty" (alias "_isatty") >>>
  define "lseek" (alias "_lseek") >>>
  define "read" (alias "_read") >>>
  define "write" (alias "_write") >>>
  define "close" (alias "_close") >>>
  define "unlink" (alias "_unlink").

(** unistd.h, lines 2-43. *)
Definition unistd_h : directive :=
  ifndef UNISTD_GUARD (
    define UNISTD_GUARD (ObjectLike []) >>>
    ifdef_else MSC_VER unistd_msvc (include_next "unistd.h")).

End Headers.

(** ** Macro expansion

    What a name defined by the shim means where it is used is decided by
    macro replacement (ISO C 6.10.3).  Every token carries the set of macro
    names it must not be replaced by again (its hide set); replacement lists
    are rescanned together with the rest of the line.  The operators [#] and
    [##] do not occur in the two headers and are not modelled. *)

Definition htoken : Type := token * gset string.

Definition unpainted (ts : list token) : list htoken := map (λ t, (t, ∅)) ts.

Definition paint (hs : gset string) (ts : list htoken) : list htoken :=
  map (λ t, (t.1, t.2 ∪ hs)) ts.

Definition is_punct (p : string) (t : token) : bool :=
  match t with TPunct q => bool_decide (q = p) | _ => false end.

(** Is the next token an opening parenthesis? *)
Definition starts_call (ts : list htoken) : bool :=
  match ts with
  | t :: _ => is_punct "(" t.1
  | [] => false
  end.

(** Arguments of a call, read after its opening parenthesis: split at the
    commas outside nested parentheses, up to the matching closing
    parenthesis.  Returns the arguments, the hide set of the closing
    parenthesis and the rest of the line; [None] when the call is not
    closed. *)
Fixpoint collect_args (depth : nat) (cur : list htoken)
    (acc : list (list htoken)) (ts : list htoken)
    : option (list (list htoken) * gset string * list htoken) :=
  match ts with
  | [] => None
  | t :: ts' =>
      if is_punct "(" t.1 then collect_args (S depth) (cur ++ [t]) acc ts'
      else if is_punct ")" t.1 then
        match depth with
        | O => Some (acc ++ [cur], t.2, ts')
        | S d => collect_args d (cur ++ [t]) acc ts'
        end
      else if is_punct "," t.1 then
        match depth with
        | O => collect_args O [] (acc ++ [cur]) ts'
        | S _ => collect_args depth (cur ++ [t]) acc ts'
        end
      else collect_args depth (cur ++ [t]) acc ts'
  end.

(** The arguments as written are matched with the parameters; their number
    must be that of the parameters.  A macro without parameters is called
    with one empty argument. *)
Definition bind_args (params : list string) (args : list (list htoken))
    : option (list (string * list htoken)) :=
  match params, args with
  | [], [[]] => Some []
  | _, _ => if decide (length params = length args)
            then Some (zip params args) else None
  end.

Definition subst_params (b : list (string * list htoken)) (body : list token)
    : list htoken :=
  mbind (λ t, match t with
              | TId x => default [(t, ∅)] (snd <$> (snd <$> list_find (λ p, p.1 = x) b))
              | _ => [(t, ∅)]
              end) body.

(** Does the parameter occur in the replacement list?  Only the arguments
    of such parameters are macro-expanded (ISO C 6.10.3.1). *)
Definition used_in (body : list token) (p : string) : bool :=
  bool_decide (TId p ∈ body).

Fixpoint expand (fuel : nat) (E : gmap string macro) (ts : list htoken)
    : option (list htoken) :=
  match fuel with
  | O => None
  | S fuel =>
      match ts with
      | [] => Some []
      | (TId x, hs) :: rest =>
          if decide (x ∈ hs) then cons (TId x, hs) <$> expand fuel E rest
          else match E !! x with
               | None => cons (TId x, hs) <$> expand fuel E rest
               | Some (ObjectLike body) =>
                   expand fuel E (paint (hs ∪ {[x]}) (unpainted body) ++ rest)
               | Some (FunctionLike params body) =>
                   if starts_call rest then
                     '(args, hs', rest') ← collect_args O [] [] (tail rest);
                     b ← bind_args params args;
                     b' ← mapM (λ pa, if used_in body pa.1
                                       then pair pa.1 <$> expand fuel E pa.2
                                       else Some (pa.1, [])) b;
                     expand fuel E
                       (paint ((hs ∩ hs') ∪ {[x]}) (subst_params b' body)
                        ++ rest')
                   else cons (TId x, hs) <$> expand fuel E rest
               end
      | t :: rest => cons t <$> expand fuel E rest
      end
  end.

Definition preprocess (fuel : nat) (E : gmap string macro) (ts : list token)
    : option (list token) :=
  map fst <$> expand fuel E (unpainted ts).

(** The tokens of the call [f(a1, ..., an)]. *)
Fixpoint comma_separated (args : list (list token)) : list token :=
  match args with
  | [] => []
  | [a] => a
  | a :: rest => a ++ TPunct "," :: comma_separated rest
  end.

Definition call (f : string) (args : list (list token)) : list token :=
  TId f :: TPunct "(" :: comma_separated args ++ [TPunct ")"].

(** ** Calls into the C runtime

    A preprocessed call [f(a1, ..., an)] is carried out by the runtime
    function named [f].  The runtime library is not part of the repository:
    [crt f args] stands for the value (error values included) that its
    function [f] returns for the given argument expressions. *)

Definition parse_call (ts : list token) : option (string * list (list token)) :=
  match ts with
  | TId f :: rest =>
      if starts_call (unpainted rest) then
        match collect_args O [] [] (unpainted (tail rest)) with
        | Some (args, _, []) =>
            Some (f, match args with
                     | [[]] => []
                     | _ => map (map fst) args
                     end)
        | _ => None
        end
      else None
  | _ => None
  end.

Section Runtime.

Variable crt : string → list (list token) → Z.

Definition call_value (ts : list token) : option Z :=
  '(f, args) ← parse_call ts; Some (crt f args).

(** The value of a call written in a translation unit whose macro table
    is [E]. *)
Definition through_shim (fuel : nat) (E : gmap string macro)
    (ts : list token) : option Z :=
  preprocess fuel E ts ≫= call_value.

End Runtime.

(** Both the POSIX functions and their runtime counterparts report success
    as 0. *)
Definition success (r : option Z) : Prop := r = Some 0.

(** ** Memory and the memory-fill primitive

    [memset(s, c, n)] of ISO C (7.24.6.1) stores [(unsigned char)c] into each
    of the first [n] bytes at [s]; it is undefined ([None]) when one of them
    is not allocated.  Memory maps allocated addresses to byte values. *)

Fixpoint fill (n : nat) (s : Z) (b : Z) (m : gmap Z Z) : option (gmap Z Z) :=
  match n with
  | O => Some m
  | S n' =>
      match m !! s with
      | None => None
      | Some _ => fill n' (s + 1) b (<[s := b]> m)
      end
  end.

Definition memset (m : gmap Z Z) (s : Z) (c : Z) (n : N) : option (gmap Z Z) :=
  fill (N.to_nat n) s (c mod 256) m.

(** An operand that is an integer constant, possibly parenthesised. *)
Definition constant_operand (ts : list token) : option Z :=
  match ts with
  | [TNum z] => Some z
  | [l; TNum z; r] =>
      if is_punct "(" l && is_punct ")" r then Some z else None
  | _ => None
  end.

(** Execution of a preprocessed [memset] call with constant operands.  A
    negative size has no meaning here (its conversion to [size_t] depends on
    the target). *)
Definition exec (m : gmap Z Z) (ts : list token) : option (gmap Z Z) :=
  match parse_call ts with
  | Some (f, [a1; a2; a3]) =>
      if decide (f = "memset") then
        match constant_operand a1, constant_operand a2,
              constant_operand a3 with
        | Some s, Some c, Some n =>
            if decide (0 ≤ n) then memset m s c (Z.to_N n) else None
        | _, _, _ => None
        end
      else None
  | _ => None
  end.

(** ** Integer widths of a target *)

Record data_model := DataModel {
  int_bits : Z;
  long_bits : Z;
  long_long_bits : Z;
  pointer_bits : Z
}.

Definition width (t : data_model) (ty : ctype) : Z :=
  match ty with
  | CInt | CUnsignedInt => int_bits t
  | CLong | CUnsignedLong => long_bits t
  | CLongLong | CUnsignedLongLong => long_long_bits t
  end.

Definition is_signed (ty : ctype) : bool :=
  match ty with
  | CInt | CLong | CLongLong => true
  | _ => false
  end.

(** Minimum widths every C implementation provides (ISO C 5.2.4.2.1). *)
Definition conforming (t : data_model) : Prop :=
  16 ≤ int_bits t ∧ 32 ≤ long_bits t ∧ 64 ≤ long_long_bits t.

(** The targets of the Microsoft compiler: 32-bit Windows (ILP32) and 64-bit
    Windows (LLP64, where [long] stays at 32 bits). *)
Definition win32 : data_model := DataModel 32 32 64 32.
Definition win64 : data_model := DataModel 32 32 64 64.
Definition msvc_targets : list data_model := [win32; win64].

(** A type holds the difference of two pointers when it is signed and at
    least as wide as a pointer. *)
Definition holds_pointer_difference (t : data_model) (ty : ctype) : Prop :=
  is_signed ty = true ∧ pointer_bits t ≤ width t ty.

(** ** Names and assumptions shared by the statements *)

(** Macros whose definition in the shim is wrapped in [#ifndef], with the
    definition the shim gives them. *)
Definition strings_guarded : list (string * macro) :=
  [("strcasecmp", alias "_stricmp"); ("strncasecmp", alias "_strnicmp");
   ("bzero", bzero_macro)].

Definition unistd_guarded : list (string * macro) :=
  [("F_OK", F_OK); ("X_OK", X_OK); ("W_OK", W_OK); ("R_OK", R_OK)].

(** The eight names checked with [#ifndef] ([ssize_t] is the typedef). *)
Definition guarded_names : list string :=
  ["strcasecmp"; "strncasecmp"; "bzero"; "ssize_t";
   "F_OK"; "X_OK"; "W_OK"; "R_OK"].

(** Names defined by unistd.h without a check of their own. *)
Definition unistd_aliases : list (string * string) :=
  [("access", "_access"); ("dup2", "_dup2"); ("fileno", "_fileno");
   ("getpid", "_getpid"); ("isatty", "_isatty"); ("lseek", "_lseek");
   ("read", "_read"); ("write", "_write"); ("close", "_close");
   ("unlink", "_unlink")].

Definition strings_aliases : list (string * string) :=
  [("strcasecmp", "_stricmp"); ("strncasecmp", "_strnicmp")].

Definition strings_surface : list string := ["strcasecmp"; "strncasecmp"; "bzero"].

Definition unistd_surface : list string :=
  ["ssize_t"; "F_OK"; "X_OK"; "W_OK"; "R_OK"; "access"; "dup2"; "fileno";
   "getpid"; "isatty"; "lseek"; "read"; "write"; "close"; "unlink"].

(** The system headers leave the listed macro names as they find them. *)
Definition preserves (native : string → env → env) (xs : list string) : Prop :=
  ∀ h e x, x ∈ xs → macros (native h e) !! x = macros e !! x.

Definition undefined_in (st : tu_state) (xs : list string) : Prop :=
  ∀ x, x ∈ xs → macro_of st x = None.

(** The system headers do not declare the name by typedef. *)
Definition keeps_typedef (native : string → env → env) (x : string) : Prop :=
  ∀ h e, typedefs_of x (native h e) = typedefs_of x e.

(** The system headers do not undefine the name: where it is a macro before
    a system header it is one after it. *)
Definition keeps_defined (native : string → env → env) (x : string) : Prop :=
  ∀ h e, is_Some (macros e !! x) → is_Some (macros (native h e) !! x).


(** A directive after which the name is a macro if it was one before. *)
Definition stays (x : string) (d : directive) : Prop :=
  ∀ st, defined x st = true → defined x (d st) = true.


(** The environment of a state, extended by the guard macro of a header. *)
Definition with_guard (g : string) (st : tu_state) : env :=
  Env (<[g := ObjectLike []]> (macros (tu_env st))) (typedefs (tu_env st)).

(** Tokens that replacement leaves alone: everything but the names of
    macros. *)
Definition inert (E : gmap string macro) (t : htoken) : Prop :=
  ∀ x, t.1 = TId x → E !! x = None.

(** An argument that is a single operand macro replacement leaves alone: a
    constant, a string literal or an identifier that is not a macro. *)
Definition plain_argument (E : gmap string macro) (t : token) : Prop :=
  match t with
  | TId x => E !! x = None
  | TPunct _ => False
  | _ => True
  end.

Definition single (args : list token) : list (list token) :=
  map (λ a, [a]) args.




(** ** Sample systems, translation units and runtimes *)

(** A system whose headers declare nothing the model tracks, and one whose
    headers each leave an include-guard style marker macro behind. *)
Definition silent_native : string → env → env := λ _ e, e.

Definition marking_native : string → env → env := λ h e,
  Env (<["_INC_" +:+ h := ObjectLike []]> (macros e)) (typedefs e).

Definition msvc_env : env := Env {[ MSC_VER := ObjectLike [TNum 1939] ]} [].
Definition msvc_tu : tu_state := TU msvc_env [] [].

(** A system in the manner of glibc: its <string.h> opens <strings.h>, which
    the search path resolves to the shim. *)
Definition reentrant_native : string → env → env := λ h e,
  if decide (h = "string.h")
  then tu_env (strings_h marking_native (TU (marking_native h e) [] []))
  else marking_native h e.

(** [F_OK] is already defined as 1. *)
Definition predefined_tu : tu_state :=
  TU (Env (<["F_OK" := ObjectLike [TNum 1]]> (macros msvc_env)) []) [] [].

(** [access] is already defined as another function. *)
Definition clashing_tu : tu_state :=
  TU (Env (<["access" := ObjectLike [TId "rb_w32_access"]]> (macros msvc_env))
          []) [] [].

(** A runtime whose [_read] returns the number of its arguments. *)
Definition sample_crt : string → list (list token) → Z :=
  λ f args, if decide (f = "_read") then Z.of_nat (length args) else -1.

(** A runtime in which exactly C:\tmp exists. *)
Definition existence_crt : string → list (list token) → Z :=
  λ f args,
    if decide (f = "_access" ∧ args = [[TStr "C:\tmp"]; [TNum 0]])
    then 0 else -1.

Definition sample_memory : gmap Z Z :=
  {[ 100 := 7; 101 := 8; 102 := 9; 103 := 10 ]}.

(** ** Notions used by the further properties *)

(** The diagnostic [#define x m] raises in a given state. *)
Definition macro_clash (st : tu_state) (x : string) (m : macro)
    : list diagnostic :=
  match macro_of st x with
  | Some m' => if decide (m' = m) then [] else [MacroRedefinition x]
  | None => []
  end.

(** The diagnostic [typedef ty x;] raises in a given state. *)
Definition typedef_clash (st : tu_state) (ty : ctype) (x : string)
    : list diagnostic :=
  if decide (Forall (λ ty', ty' = ty) (typedefs_of x (tu_env st)))
  then [] else [TypedefRedefinition x].

(** The system headers contain no [#undef] of a macro they find defined. *)
Definition never_undefines (native : string → env → env) : Prop :=
  ∀ h e x, is_Some (macros e !! x) → is_Some (macros (native h e) !! x).

(** A directive after which every macro defined before is still defined. *)
Definition monotone (d : directive) : Prop :=
  ∀ st x, defined x st = true → defined x (d st) = true.

(** A token of an argument written without parentheses and commas and
    without macro names, such as the tokens of [buf + 4]. *)
Definition flat (E : gmap string macro) (t : token) : Prop :=
  match t with
  | TId x => E !! x = None
  | TPunct p => p ≠ "(" ∧ p ≠ ")" ∧ p ≠ ","
  | _ => True
  end.

(** Every macro name one of the two headers tests or defines, [_MSC_VER]
    apart. *)
Definition shim_names : list string :=
  STRINGS_GUARD :: UNISTD_GUARD :: strings_surface ++ unistd_surface.

(** [ssize_t] is already declared as [long long]. *)
Definition typedef_tu : tu_state :=
  TU (Env (macros msvc_env) [("ssize_t", CLongLong)]) [] [].

(** ** Tactics *)

Ltac split_members H :=
  repeat (apply elem_of_cons in H as [H | H];
          [first [discriminate H | simplify_eq] |]);
  try (apply elem_of_nil in H; destruct H).

(** Closes the branch of each name comparison that contradicts [Hx]. *)
Ltac other_name Hx :=
  repeat match goal with
         | |- context [decide (?a = ?b)] =>
             destruct (decide (a = b)) as [<- | ?];
             [exfalso; apply Hx; repeat constructor |]
         end.

Ltac reshape := cbn [paint unpainted map app fst snd].

(** ** Effect of single directives *)

Lemma defined_true x st : defined x st = true ↔ is_Some (macro_of st x).
Proof. unfold defined. apply bool_decide_eq_true. Qed.

Lemma defined_false x st : defined x st = false ↔ macro_of st x = None.
Proof.
  unfold defined. rewrite bool_decide_eq_false, eq_None_not_Some. reflexivity.
Qed.

Lemma macro_of_define x m st y :
  macro_of (define x m st) y = if decide (x = y) then Some m else macro_of st y.
Proof. unfold macro_of, define. simpl. apply lookup_insert. Qed.

Lemma macro_of_typedef ty x st y :
  macro_of (typedef ty x st) y = macro_of st y.
Proof. reflexivity. Qed.

Lemma macro_of_ifndef_define x m st y :
  macro_of (ifndef x (define x m) st) y =
  if decide (x = y) then Some (default m (macro_of st x)) else macro_of st y.
Proof.
  unfold ifndef. destruct (defined x st) eqn:Hd.
  - apply defined_true in Hd as [m' Hm']. case_decide; subst; by rewrite ?Hm'.
  - apply defined_false in Hd. rewrite macro_of_define.
    case_decide; by rewrite ?Hd.
Qed.

Lemma macro_of_ifndef_typedef g ty x st y :
  macro_of (ifndef g (typedef ty x) st) y = macro_of st y.
Proof. unfold ifndef. by destruct (defined g st). Qed.

Lemma tu_diags_ifndef_define x m st :
  tu_diags (ifndef x (define x m) st) = tu_diags st.
Proof.
  unfold ifndef. destruct (defined x st) eqn:Hd; [done |].
  apply defined_false in Hd. unfold define, macro_of in *. simpl.
  rewrite Hd. apply app_nil_r.
Qed.

Lemma typedefs_ifndef_define x m st :
  typedefs (tu_env (ifndef x (define x m) st)) = typedefs (tu_env st).
Proof. unfold ifndef. by destruct (defined x st). Qed.

Lemma typedefs_of_app x l1 l2 ms1 ms2 :
  typedefs_of x (Env ms1 (l1 ++ l2)) =
  typedefs_of x (Env ms1 l1) ++ typedefs_of x (Env ms2 l2).
Proof. unfold typedefs_of. simpl. apply omap_app. Qed.

Section DirectiveFacts.

Variable native : string → env → env.

Lemma macro_of_include xs h st y :
  preserves native xs → y ∈ xs →
  macro_of (include native h st) y = macro_of st y.
Proof. intros Hp Hy. unfold macro_of, include. simpl. by apply Hp. Qed.

Lemma macro_of_include_own h st y :
  preserves native [y] → macro_of (include native h st) y = macro_of st y.
Proof. intros Hp. apply (macro_of_include [y]); [done | constructor]. Qed.

Lemma macro_of_include_next xs h st y :
  preserves native xs → y ∈ xs →
  macro_of (include_next native h st) y = macro_of st y.
Proof. intros Hp Hy. unfold macro_of, include_next. simpl. by apply Hp. Qed.

Lemma defined_include xs h st y :
  preserves native xs → y ∈ xs →
  defined y (include native h st) = defined y st.
Proof.
  intros Hp Hy. unfold defined. by rewrite (macro_of_include xs).
Qed.

Lemma preserves_weaken xs ys :
  preserves native xs → ys ⊆ xs → preserves native ys.
Proof. intros Hp Hs h e x Hx. apply Hp. by apply Hs. Qed.

End DirectiveFacts.

Lemma defined_define x m st y :
  defined y (define x m st) = if decide (x = y) then true else defined y st.
Proof.
  unfold defined. rewrite macro_of_define. case_decide; [| done].
  apply bool_decide_eq_true. eauto.
Qed.

(** ** Shape of the headers in each situation *)

Section HeaderShapes.

Variable native : string → env → env.

Lemma strings_h_again st :
  defined STRINGS_GUARD st = true → strings_h native st = st.
Proof. intros H. unfold strings_h, ifndef. by rewrite H. Qed.

Lemma unistd_h_again st :
  defined UNISTD_GUARD st = true → unistd_h native st = st.
Proof. intros H. unfold unistd_h, ifndef. by rewrite H. Qed.

Lemma unistd_h_msvc st :
  defined UNISTD_GUARD st = false → defined MSC_VER st = true →
  unistd_h native st =
  unistd_msvc native (define UNISTD_GUARD (ObjectLike []) st).
Proof.
  intros Hg Hm. unfold unistd_h, ifndef, seq, ifdef_else.
  rewrite Hg, defined_define, Hm. by case_decide.
Qed.

Lemma unistd_h_posix st :
  defined UNISTD_GUARD st = false → defined MSC_VER st = false →
  unistd_h native st =
  include_next native "unistd.h" (define UNISTD_GUARD (ObjectLike []) st).
Proof.
  intros Hg Hm. unfold unistd_h, ifndef, seq, ifdef_else.
  rewrite Hg, defined_define, Hm. by case_decide.
Qed.

Lemma strings_h_msvc st :
  preserves native [MSC_VER] →
  defined STRINGS_GUARD st = false → defined MSC_VER st = true →
  strings_h native st =
  strings_msvc native
    (include native "string.h" (define STRINGS_GUARD (ObjectLike []) st)).
Proof.
  intros Hp Hg Hm. unfold strings_h, ifndef, seq, ifdef.
  rewrite Hg, (defined_include native [MSC_VER]), defined_define, Hm
    by (done || set_solver).
  by case_decide.
Qed.

Lemma strings_h_posix st :
  preserves native [MSC_VER] →
  defined STRINGS_GUARD st = false → defined MSC_VER st = false →
  strings_h native st =
  include native "string.h" (define STRINGS_GUARD (ObjectLike []) st).
Proof.
  intros Hp Hg Hm. unfold strings_h, ifndef, seq, ifdef.
  rewrite Hg, (defined_include native [MSC_VER]), defined_define, Hm
    by (done || set_solver).
  by case_decide.
Qed.

Lemma macro_of_includes_unistd st y :
  preserves native [y] →
  macro_of (include native "stdlib.h" (include native "process.h"
    (include native "io.h" (include native "direct.h" st)))) y
  = macro_of st y.
Proof.
  intros Hp. by rewrite !macro_of_include_own.
Qed.

(** Macro table after the Microsoft branch of unistd.h. *)
Lemma macro_of_unistd_msvc_alias st x t :
  (x, t) ∈ unistd_aliases →
  macro_of (unistd_msvc native st) x = Some (alias t).
Proof.
  intros Hx. unfold unistd_msvc, seq. rewrite !macro_of_define.
  unfold unistd_aliases in Hx. split_members Hx; reflexivity.
Qed.

Lemma macro_of_unistd_msvc_guarded st x m :
  (x, m) ∈ unistd_guarded →
  preserves native [x] →
  macro_of (unistd_msvc native st) x = Some (default m (macro_of st x)).
Proof.
  intros Hx Hp. unfold unistd_msvc, seq. unfold unistd_guarded in Hx.
  rewrite !macro_of_define, !macro_of_ifndef_define, macro_of_ifndef_typedef.
  split_members Hx; simpl;
    rewrite ?macro_of_ifndef_define, ?macro_of_ifndef_typedef; simpl;
    by rewrite macro_of_includes_unistd.
Qed.

Lemma macro_of_unistd_msvc_other st x :
  x ∉ unistd_surface → preserves native [x] →
  macro_of (unistd_msvc native st) x = macro_of st x.
Proof.
  intros Hx Hp. unfold unistd_msvc, seq.
  rewrite !macro_of_define, !macro_of_ifndef_define, macro_of_ifndef_typedef.
  unfold unistd_surface in Hx. other_name Hx.
  rewrite ?macro_of_ifndef_typedef. by apply macro_of_includes_unistd.
Qed.

Lemma macro_of_ssize_t_unistd_msvc st :
  preserves native ["ssize_t"] →
  macro_of (unistd_msvc native st) "ssize_t" = macro_of st "ssize_t".
Proof.
  intros Hp. unfold unistd_msvc, seq.
  rewrite !macro_of_define, !macro_of_ifndef_define, macro_of_ifndef_typedef.
  simpl. rewrite ?macro_of_ifndef_typedef.
  by apply macro_of_includes_unistd.
Qed.

(** Macro table after the Microsoft branch of strings.h. *)
Lemma macro_of_strings_msvc_guarded st x m :
  (x, m) ∈ strings_guarded →
  preserves native [x] →
  macro_of (strings_msvc native st) x = Some (default m (macro_of st x)).
Proof.
  intros Hx Hp. unfold strings_msvc, seq. unfold strings_guarded in Hx.
  rewrite !macro_of_ifndef_define.
  split_members Hx; simpl; rewrite ?macro_of_ifndef_define; simpl;
    by rewrite macro_of_include_own.
Qed.

Lemma macro_of_strings_msvc_other st x :
  x ∉ strings_surface → preserves native [x] →
  macro_of (strings_msvc native st) x = macro_of st x.
Proof.
  intros Hx Hp. unfold strings_msvc, seq.
  rewrite !macro_of_ifndef_define. unfold strings_surface in Hx.
  other_name Hx. by rewrite macro_of_include_own.
Qed.

End HeaderShapes.

(** ** Typedef declarations after the Microsoft branch of unistd.h *)

Section Typedefs.

Variable native : string → env → env.

Lemma typedefs_of_define x m st y :
  typedefs_of y (tu_env (define x m st)) = typedefs_of y (tu_env st).
Proof. reflexivity. Qed.

Lemma typedefs_of_ifndef_define x m st y :
  typedefs_of y (tu_env (ifndef x (define x m) st))
  = typedefs_of y (tu_env st).
Proof. unfold typedefs_of. by rewrite typedefs_ifndef_define. Qed.

Lemma typedefs_of_include h st y :
  keeps_typedef native y →
  typedefs_of y (tu_env (include native h st)) = typedefs_of y (tu_env st).
Proof. intros Hk. apply Hk. Qed.

Lemma typedefs_of_ifndef_typedef st :
  typedefs_of "ssize_t"
    (tu_env (ifndef "ssize_t" (typedef CLong "ssize_t") st))
  = typedefs_of "ssize_t" (tu_env st)
    ++ (if defined "ssize_t" st then [] else [CLong]).
Proof.
  unfold ifndef. destruct (defined "ssize_t" st); [by rewrite app_nil_r |].
  unfold typedef, typedefs_of. simpl. by rewrite omap_app.
Qed.

Lemma typedefs_of_unistd_msvc st :
  preserves native ["ssize_t"] → keeps_typedef native "ssize_t" →
  typedefs_of "ssize_t" (tu_env (unistd_msvc native st))
  = typedefs_of "ssize_t" (tu_env st)
    ++ (if defined "ssize_t" st then [] else [CLong]).
Proof.
  intros Hp Hk. unfold unistd_msvc, seq.
  rewrite !typedefs_of_define, !typedefs_of_ifndef_define.
  rewrite typedefs_of_ifndef_typedef. unfold defined.
  rewrite macro_of_includes_unistd by done.
  by rewrite !typedefs_of_include.
Qed.


End Typedefs.

(** ** What an inclusion keeps *)

Section Kept.

Variable native : string → env → env.

Lemma strings_msvc_keeps st x d :
  preserves native [x] → macro_of st x = Some d →
  macro_of (strings_msvc native st) x = Some d.
Proof.
  intros Hp Hd. destruct (decide (x ∈ strings_surface)) as [Hin | Hout].
  - unfold strings_surface in Hin.
    split_members Hin;
      erewrite macro_of_strings_msvc_guarded; try done;
      try (by rewrite Hd); unfold strings_guarded; repeat constructor.
  - by rewrite macro_of_strings_msvc_other.
Qed.

Lemma unistd_msvc_keeps st x d :
  x ∉ unistd_aliases.*1 → preserves native [x] → macro_of st x = Some d →
  macro_of (unistd_msvc native st) x = Some d.
Proof.
  intros Hx Hp Hd. destruct (decide (x ∈ unistd_surface)) as [Hin | Hout].
  - unfold unistd_surface in Hin.
    split_members Hin;
      try (exfalso; apply Hx; simpl; by repeat constructor);
      try (by rewrite macro_of_ssize_t_unistd_msvc);
      erewrite macro_of_unistd_msvc_guarded; try done;
      try (by rewrite Hd); unfold unistd_guarded; repeat constructor.
  - by rewrite macro_of_unistd_msvc_other.
Qed.

Lemma strings_h_first st :
  defined STRINGS_GUARD st = false →
  strings_h native st =
  ifdef MSC_VER (strings_msvc native)
    (include native "string.h" (define STRINGS_GUARD (ObjectLike []) st)).
Proof. intros Hg. unfold strings_h, ifndef. by rewrite Hg. Qed.

Lemma unistd_h_first st :
  defined UNISTD_GUARD st = false →
  unistd_h native st =
  ifdef_else MSC_VER (unistd_msvc native) (include_next native "unistd.h")
    (define UNISTD_GUARD (ObjectLike []) st).
Proof. intros Hg. unfold unistd_h, ifndef. by rewrite Hg. Qed.

Lemma strings_h_keeps st x d :
  preserves native [x] → macro_of st x = Some d →
  macro_of (strings_h native st) x = Some d.
Proof.
  intros Hp Hd. destruct (defined STRINGS_GUARD st) eqn:Hg.
  { by rewrite strings_h_again. }
  rewrite strings_h_first by done.
  assert (macro_of
    (include native "string.h" (define STRINGS_GUARD (ObjectLike []) st)) x
    = Some d) as Hd'.
  { rewrite macro_of_include_own, macro_of_define by done.
    case_decide as Heq; [| done]. apply defined_false in Hg. congruence. }
  unfold ifdef. destruct (defined MSC_VER _); [| done].
  by apply strings_msvc_keeps.
Qed.

Lemma unistd_h_keeps st x d :
  x ∉ unistd_aliases.*1 → preserves native [x] → macro_of st x = Some d →
  macro_of (unistd_h native st) x = Some d.
Proof.
  intros Hx Hp Hd. destruct (defined UNISTD_GUARD st) eqn:Hg.
  { by rewrite unistd_h_again. }
  rewrite unistd_h_first by done.
  assert (macro_of (define UNISTD_GUARD (ObjectLike []) st) x = Some d)
    as Hd'.
  { rewrite macro_of_define. case_decide as Heq; [| done].
    apply defined_false in Hg. congruence. }
  unfold ifdef_else. destruct (defined MSC_VER _).
  - by apply unistd_msvc_keeps.
  - erewrite macro_of_include_next; [done | done | constructor].
Qed.

Lemma strings_guard_defined st :
  preserves native [STRINGS_GUARD] →
  defined STRINGS_GUARD (strings_h native st) = true.
Proof.
  intros Hp. destruct (defined STRINGS_GUARD st) eqn:Hg.
  { by rewrite strings_h_again. }
  rewrite strings_h_first by done. apply defined_true.
  assert (macro_of
    (include native "string.h" (define STRINGS_GUARD (ObjectLike []) st))
    STRINGS_GUARD = Some (ObjectLike [])) as Hd.
  { rewrite macro_of_include_own, macro_of_define by done. by case_decide. }
  unfold ifdef. destruct (defined MSC_VER _); [| by rewrite Hd].
  erewrite strings_msvc_keeps; done.
Qed.

Lemma unistd_guard_defined st :
  preserves native [UNISTD_GUARD] →
  defined UNISTD_GUARD (unistd_h native st) = true.
Proof.
  intros Hp. destruct (defined UNISTD_GUARD st) eqn:Hg.
  { by rewrite unistd_h_again. }
  rewrite unistd_h_first by done. apply defined_true.
  assert (macro_of (define UNISTD_GUARD (ObjectLike []) st) UNISTD_GUARD
          = Some (ObjectLike [])) as Hd.
  { rewrite macro_of_define. by case_decide. }
  unfold ifdef_else. destruct (defined MSC_VER _).
  - erewrite unistd_msvc_keeps; [done | | done | done].
    unfold UNISTD_GUARD. simpl. intros Hin. split_members Hin.
  - erewrite macro_of_include_next; [by rewrite Hd | done | constructor].
Qed.

End Kept.

(** ** The sample system headers satisfy the assumptions *)

Lemma silent_native_preserves xs : preserves silent_native xs.
Proof. by intros h e x _. Qed.

Lemma silent_native_keeps_typedef x : keeps_typedef silent_native x.
Proof. by intros h e. Qed.

Lemma marking_native_keeps_typedef x : keeps_typedef marking_native x.
Proof. by intros h e. Qed.

Lemma marking_native_preserves xs :
  Forall (λ x, String.prefix "_INC_" x = false) xs →
  preserves marking_native xs.
Proof.
  intros Hxs h e x Hx. unfold marking_native. simpl.
  apply lookup_insert_ne. intros <-.
  rewrite Forall_forall in Hxs. specialize (Hxs _ Hx). simpl in Hxs.
  by destruct h.
Qed.

Lemma preserves_elem native xs x :
  preserves native xs → x ∈ xs → preserves native [x].
Proof.
  intros Hp Hx h e y Hy. apply list_elem_of_singleton in Hy as ->.
  by apply Hp.
Qed.

Lemma tu_diags_define_quiet x m st :
  macro_of st x = None ∨ macro_of st x = Some m →
  tu_diags (define x m st) = tu_diags st.
Proof.
  unfold define, macro_of. simpl. intros [-> | ->]; [apply app_nil_r |].
  rewrite decide_True by done. apply app_nil_r.
Qed.

(** ** Macro replacement, step by step *)

Lemma map_fst_unpainted ts : map fst (unpainted ts) = ts.
Proof. unfold unpainted. rewrite map_map. apply map_id. Qed.

Lemma expand_nil fuel E : expand (S fuel) E [] = Some [].
Proof. reflexivity. Qed.

Lemma expand_other fuel E t rest :
  (∀ x, t.1 ≠ TId x) →
  expand (S fuel) E (t :: rest) = cons t <$> expand fuel E rest.
Proof. destruct t as [[] hs]; simpl; intros H; [by destruct (H x) | done ..]. Qed.

Lemma expand_undefined fuel E x hs rest :
  E !! x = None →
  expand (S fuel) E ((TId x, hs) :: rest)
  = cons (TId x, hs) <$> expand fuel E rest.
Proof. intros H. simpl. rewrite H. by case_decide. Qed.

Lemma expand_object fuel E x hs body rest :
  x ∉ hs → E !! x = Some (ObjectLike body) →
  expand (S fuel) E ((TId x, hs) :: rest)
  = expand fuel E (paint (hs ∪ {[x]}) (unpainted body) ++ rest).
Proof. intros Hx H. simpl. rewrite H. by rewrite decide_False. Qed.

Lemma expand_function fuel E x hs params body rest args hs' rest' b b' :
  x ∉ hs → E !! x = Some (FunctionLike params body) →
  starts_call rest = true →
  collect_args O [] [] (tail rest) = Some (args, hs', rest') →
  bind_args params args = Some b →
  mapM (λ pa, if used_in body pa.1 then pair pa.1 <$> expand fuel E pa.2
              else Some (pa.1, [])) b = Some b' →
  expand (S fuel) E ((TId x, hs) :: rest)
  = expand fuel E (paint ((hs ∩ hs') ∪ {[x]}) (subst_params b' body) ++ rest').
Proof.
  intros Hx H Hs Hc Hb Hm. simpl. rewrite H, decide_False, Hs by done.
  rewrite Hc. simpl. rewrite Hb. simpl. by rewrite Hm.
Qed.

Lemma expand_inert E ts :
  Forall (inert E) ts →
  ∀ fuel, (length ts < fuel)%nat → expand fuel E ts = Some ts.
Proof.
  induction 1 as [| t ts Ht _ IH]; intros fuel Hf.
  - destruct fuel; [lia | done].
  - destruct fuel as [| fuel]; [simpl in Hf; lia |].
    simpl in Hf. specialize (IH fuel ltac:(lia)).
    destruct t as [[x | | |] hs].
    + rewrite expand_undefined by (by apply Ht). by rewrite IH.
    + rewrite expand_other by done. by rewrite IH.
    + rewrite expand_other by done. by rewrite IH.
    + rewrite expand_other by done. by rewrite IH.
Qed.

Lemma inert_unpainted E ts :
  Forall (λ t, ∀ x, t = TId x → E !! x = None) ts →
  Forall (inert E) (unpainted ts).
Proof. unfold unpainted. intros H. by apply Forall_map. Qed.

(** A call through a name defined as an alias. *)
Lemma preprocess_alias E f g ts fuel :
  E !! f = Some (alias g) → E !! g = None →
  Forall (λ t, ∀ x, t = TId x → E !! x = None) ts →
  (length ts + 2 < fuel)%nat →
  preprocess fuel E (TId f :: ts) = Some (TId g :: ts).
Proof.
  intros Hf Hg Hts Hfuel. unfold preprocess.
  destruct fuel as [| [| fuel]]; [lia .. |].
  change (unpainted (TId f :: ts)) with ((TId f, ∅) :: unpainted ts).
  rewrite (expand_object _ _ _ _ [TId g]) by (done || set_solver).
  change (paint ?hs (unpainted [TId g]) ++ ?r)
    with ((TId g, (∅ : gset string) ∪ hs) :: r).
  rewrite expand_undefined by done.
  rewrite expand_inert;
    [| by apply inert_unpainted | unfold unpainted; rewrite length_map; lia].
  simpl. by rewrite map_fst_unpainted.
Qed.

(** ** Shape of calls *)

Lemma plain_argument_inert E a : plain_argument E a → ∀ x, a = TId x → E !! x = None.
Proof. intros H x ->. exact H. Qed.

Lemma comma_separated_inert E args :
  Forall (plain_argument E) args →
  Forall (λ t, ∀ x, t = TId x → E !! x = None) (comma_separated (single args)).
Proof.
  induction 1 as [| a args Ha Hargs IH]; [constructor |].
  destruct args as [| b args].
  - simpl. constructor; [by apply plain_argument_inert | constructor].
  - change (comma_separated (single (a :: b :: args)))
      with (a :: TPunct "," :: comma_separated (single (b :: args))).
    constructor; [by apply plain_argument_inert |].
    constructor; [done | exact IH].
Qed.

Lemma length_comma_separated args :
  (length (comma_separated (single args)) ≤ 2 * length args)%nat.
Proof.
  induction args as [| a [| b args] IH]; simpl in *; lia.
Qed.

Lemma collect_args_single E args acc :
  Forall (plain_argument E) args → args ≠ [] →
  collect_args O [] acc
    (unpainted (comma_separated (single args) ++ [TPunct ")"]))
  = Some (acc ++ map (λ a, [(a, ∅)]) args, ∅, []).
Proof.
  intros Hargs. revert acc.
  induction Hargs as [| a args Ha Hargs IH]; intros acc Hne; [done |].
  destruct args as [| b args].
  - destruct a; try done.
  - change (comma_separated (single (a :: b :: args)))
      with (a :: TPunct "," :: comma_separated (single (b :: args))).
    assert (collect_args O [] acc
              (unpainted ((a :: TPunct ","
                 :: comma_separated (single (b :: args))) ++ [TPunct ")"]))
            = collect_args O [] (acc ++ [[(a, ∅)]])
                (unpainted (comma_separated (single (b :: args))
                   ++ [TPunct ")"]))) as ->.
    { destruct a; try done. }
    rewrite IH by done. by rewrite <- app_assoc.
Qed.

Lemma parse_call_single E g args :
  Forall (plain_argument E) args →
  parse_call (call g (single args)) = Some (g, single args).
Proof.
  intros Hargs. unfold parse_call, call.
  change (starts_call (unpainted (TPunct "(" :: ?r))) with true.
  cbv iota. change (tail (TPunct "(" :: ?r)) with r.
  destruct args as [| a args].
  - reflexivity.
  - rewrite (collect_args_single E) by done. simpl.
    unfold single. simpl. do 2 f_equal. f_equal.
    rewrite map_map. simpl. reflexivity.
Qed.

Lemma length_call f args :
  (length (call f (single args)) ≤ 2 * length args + 3)%nat.
Proof.
  unfold call. simpl. rewrite length_app. simpl.
  pose proof (length_comma_separated args). lia.
Qed.

Lemma preprocess_alias_call E f g args fuel :
  E !! f = Some (alias g) → E !! g = None →
  Forall (plain_argument E) args →
  (2 * length args + 5 ≤ fuel)%nat →
  preprocess fuel E (call f (single args)) = Some (call g (single args)).
Proof.
  intros Hf Hg Hargs Hfuel. unfold call.
  apply (preprocess_alias E f g); try done.
  - constructor; [done |]. apply Forall_app. split.
    + by apply comma_separated_inert.
    + by constructor.
  - simpl. rewrite length_app. simpl.
    pose proof (length_comma_separated args). lia.
Qed.

Lemma through_shim_alias crt E f g args fuel :
  E !! f = Some (alias g) → E !! g = None →
  Forall (plain_argument E) args →
  (2 * length args + 5 ≤ fuel)%nat →
  through_shim crt fuel E (call f (single args))
  = Some (crt g (single args)).
Proof.
  intros Hf Hg Hargs Hfuel. unfold through_shim.
  rewrite (preprocess_alias_call E f g) by done. simpl. unfold call_value.
  by rewrite (parse_call_single E).
Qed.

Lemma mapM_two {A B} (f : A → option B) x y x' y' :
  f x = Some x' → f y = Some y' → mapM f [x; y] = Some [x'; y'].
Proof. intros Hx Hy. simpl. rewrite Hx. simpl. by rewrite Hy. Qed.

(** Two arguments whose parameters both occur in the replacement list and
    that replacement leaves as they are. *)
Lemma expand_args_two fuel E body p1 p2 l1 l2 :
  used_in body p1 = true → used_in body p2 = true →
  expand fuel E l1 = Some l1 → expand fuel E l2 = Some l2 →
  mapM (λ pa, if used_in body pa.1 then pair pa.1 <$> expand fuel E pa.2
              else Some (pa.1, [])) [(p1, l1); (p2, l2)]
  = Some [(p1, l1); (p2, l2)].
Proof.
  intros H1 H2 He1 He2. apply mapM_two; simpl.
  - by rewrite H1, He1.
  - by rewrite H2, He2.
Qed.

(** One step of [expand] on the token at the head of the line. *)
Ltac expand_step :=
  first
    [ rewrite expand_nil
    | rewrite expand_other by done
    | rewrite expand_undefined by done
    | erewrite expand_object by (done || set_solver); reshape ].

(** The token of a plain argument with an empty hide set is inert. *)
Lemma plain_argument_expand E a fuel :
  plain_argument E a → expand (S (S fuel)) E [(a, ∅)] = Some [(a, ∅)].
Proof.
  intros Ha. apply expand_inert; [| simpl; lia].
  constructor; [| constructor]. intros x Hx. simpl in Hx. subst a. exact Ha.
Qed.

(** The call [bzero(a1, a2)] where bzero is the macro of the shim. *)
Lemma preprocess_bzero_call E a1 a2 fuel :
  E !! "bzero" = Some bzero_macro → E !! "memset" = None →
  plain_argument E a1 → plain_argument E a2 →
  (17 ≤ fuel)%nat →
  preprocess fuel E (call "bzero" (single [a1; a2]))
  = Some (call "memset"
            [[TPunct "("; a1; TPunct ")"]; [TNum 0];
             [TPunct "("; a2; TPunct ")"]]).
Proof.
  intros Hb Hm H1 H2 Hfuel.
  replace fuel with (17 + (fuel - 17))%nat by lia.
  generalize (fuel - 17)%nat. intros k. cbn [Nat.add].
  unfold preprocess, call, single. reshape.
  cbn [comma_separated app]. reshape.
  erewrite expand_function;
    [ | set_solver | exact Hb | reflexivity
      | destruct a1, a2; try done; reflexivity
      | reflexivity
      | apply expand_args_two;
          first [reflexivity | by apply plain_argument_expand] ].
  change (subst_params _ _)
    with [(TId "memset", (∅ : gset string)); (TPunct "(", ∅);
          (TPunct "(", ∅); (a1, ∅); (TPunct ")", ∅); (TPunct ",", ∅);
          (TNum 0, ∅); (TPunct ",", ∅);
          (TPunct "(", ∅); (a2, ∅); (TPunct ")", ∅); (TPunct ")", ∅)].
  reshape. rewrite expand_undefined by done.
  rewrite expand_inert; [by reshape | | simpl; lia].
  repeat (constructor; [first [by intros x [=] | idtac] |]);
    try constructor.
  - intros x Hx. simpl in Hx. subst a1. exact H1.
  - intros x Hx. simpl in Hx. subst a2. exact H2.
Qed.

(** ** The memory-fill primitive *)

Lemma fill_spec n : ∀ s b (m : gmap Z Z),
  (∀ i, 0 ≤ i < Z.of_nat n → is_Some (m !! (s + i))) →
  ∃ m', fill n s b m = Some m'
        ∧ (∀ i, 0 ≤ i < Z.of_nat n → m' !! (s + i) = Some b)
        ∧ (∀ a, a < s ∨ s + Z.of_nat n ≤ a → m' !! a = m !! a).
Proof.
  induction n as [| n IH]; intros s b m Halloc.
  - exists m. split; [done |]. split; [intros; lia | done].
  - simpl fill. destruct (Halloc 0 ltac:(lia)) as [v Hv].
    rewrite Z.add_0_r in Hv. rewrite Hv.
    destruct (IH (s + 1) b (<[s := b]> m)) as (m' & Hfill & Hin & Hout).
    { intros i Hi. destruct (Halloc (1 + i) ltac:(lia)) as [w Hw].
      rewrite lookup_insert_ne by lia.
      replace (s + 1 + i) with (s + (1 + i)) by lia. eauto. }
    exists m'. split; [done |]. split.
    + intros i Hi. destruct (decide (i = 0)) as [-> | Hne].
      * rewrite Z.add_0_r, Hout by lia. apply lookup_insert_eq.
      * replace (s + i) with (s + 1 + (i - 1)) by lia. apply Hin. lia.
    + intros a Ha. rewrite Hout by lia. apply lookup_insert_ne. lia.
Qed.

Lemma memset_zero m s n :
  0 ≤ n → (∀ i, 0 ≤ i < n → is_Some (m !! (s + i))) →
  ∃ m', memset m s 0 (Z.to_N n) = Some m'
        ∧ ∀ i, 0 ≤ i < n → m' !! (s + i) = Some 0.
Proof.
  intros Hn Halloc. unfold memset.
  destruct (fill_spec (N.to_nat (Z.to_N n)) s (0 mod 256) m)
    as (m' & Hfill & Hin & _).
  { intros i Hi. apply Halloc. lia. }
  exists m'. split; [done |]. intros i Hi. apply Hin. lia.
Qed.

(** ** Calls and constants through the macros of unistd.h *)

Lemma preprocess_constant E c z fuel :
  E !! c = Some (ObjectLike [TNum z]) → (3 ≤ fuel)%nat →
  preprocess fuel E [TId c] = Some [TNum z].
Proof.
  intros Hc Hfuel. replace fuel with (3 + (fuel - 3))%nat by lia.
  generalize (fuel - 3)%nat. intros k. cbn [Nat.add].
  unfold preprocess. reshape. by repeat expand_step.
Qed.

Lemma preprocess_access_mode E path c z fuel :
  E !! "access" = Some (alias "_access") → E !! "_access" = None →
  E !! c = Some (ObjectLike [TNum z]) → (9 ≤ fuel)%nat →
  preprocess fuel E (call "access" [[TStr path]; [TId c]])
  = Some (call "_access" [[TStr path]; [TNum z]]).
Proof.
  intros Ha Hn Hc Hfuel. replace fuel with (9 + (fuel - 9))%nat by lia.
  generalize (fuel - 9)%nat. intros k. cbn [Nat.add].
  unfold preprocess, call. cbn [comma_separated app]. reshape.
  unfold alias in Ha. by repeat expand_step.
Qed.

Lemma through_shim_access_mode crt E path c z fuel :
  E !! "access" = Some (alias "_access") → E !! "_access" = None →
  E !! c = Some (ObjectLike [TNum z]) → (9 ≤ fuel)%nat →
  through_shim crt fuel E (call "access" [[TStr path]; [TId c]])
  = Some (crt "_access" [[TStr path]; [TNum z]]).
Proof.
  intros Ha Hn Hc Hfuel. unfold through_shim.
  by rewrite (preprocess_access_mode E path c z).
Qed.

Lemma exec_memset_call m buf n :
  0 ≤ n →
  exec m (call "memset"
            [[TPunct "("; TNum buf; TPunct ")"]; [TNum 0];
             [TPunct "("; TNum n; TPunct ")"]])
  = memset m buf 0 (Z.to_N n).
Proof. intros Hn. unfold exec. simpl. by rewrite decide_True. Qed.


(** ** Macro table after a first inclusion under the Microsoft runtime *)

Section Lookups.

Variable native : string → env → env.

Lemma unistd_h_alias_lookup st f g :
  defined MSC_VER st = true → defined UNISTD_GUARD st = false →
  (f, g) ∈ unistd_aliases →
  macro_of (unistd_h native st) f = Some (alias g).
Proof.
  intros Hm Hg Hf. rewrite unistd_h_msvc by done.
  by apply macro_of_unistd_msvc_alias.
Qed.

Lemma unistd_h_guarded_lookup st x m :
  defined MSC_VER st = true → defined UNISTD_GUARD st = false →
  (x, m) ∈ unistd_guarded → preserves native [x] →
  macro_of (unistd_h native st) x = Some (default m (macro_of st x)).
Proof.
  intros Hm Hg Hx Hp. rewrite unistd_h_msvc by done.
  rewrite (macro_of_unistd_msvc_guarded native _ x m) by done.
  rewrite macro_of_define. case_decide as Heq; [| done].
  subst x. unfold unistd_guarded in Hx. split_members Hx.
Qed.

Lemma unistd_h_other_lookup st x :
  defined MSC_VER st = true → defined UNISTD_GUARD st = false →
  x ∉ unistd_surface → x ≠ UNISTD_GUARD → preserves native [x] →
  macro_of (unistd_h native st) x = macro_of st x.
Proof.
  intros Hm Hg Hx Hne Hp. rewrite unistd_h_msvc by done.
  rewrite macro_of_unistd_msvc_other by done.
  rewrite macro_of_define. by case_decide.
Qed.

Lemma strings_h_guarded_lookup st x m :
  preserves native [MSC_VER] →
  defined MSC_VER st = true → defined STRINGS_GUARD st = false →
  (x, m) ∈ strings_guarded → preserves native [x] →
  macro_of (strings_h native st) x = Some (default m (macro_of st x)).
Proof.
  intros Hpm Hm Hg Hx Hp. rewrite strings_h_msvc by done.
  rewrite (macro_of_strings_msvc_guarded native _ x m) by done.
  rewrite macro_of_include_own, macro_of_define by done.
  case_decide as Heq; [| done].
  subst x. unfold strings_guarded in Hx. split_members Hx.
Qed.

Lemma strings_h_other_lookup st x :
  preserves native [MSC_VER] →
  defined MSC_VER st = true → defined STRINGS_GUARD st = false →
  x ∉ strings_surface → x ≠ STRINGS_GUARD → preserves native [x] →
  macro_of (strings_h native st) x = macro_of st x.
Proof.
  intros Hpm Hm Hg Hx Hne Hp. rewrite strings_h_msvc by done.
  rewrite macro_of_strings_msvc_other by done.
  rewrite macro_of_include_own, macro_of_define by done.
  by case_decide.
Qed.

End Lookups.

(** ** Headers requested by the two branches *)

Lemma tu_included_define x m st :
  tu_included (define x m st) = tu_included st.
Proof. reflexivity. Qed.

Lemma tu_included_ifndef_define x m st :
  tu_included (ifndef x (define x m) st) = tu_included st.
Proof. unfold ifndef. by destruct (defined x st). Qed.

Lemma tu_included_ifndef_typedef g ty x st :
  tu_included (ifndef g (typedef ty x) st) = tu_included st.
Proof. unfold ifndef. by destruct (defined g st). Qed.

Lemma tu_included_strings_msvc native st :
  tu_included (strings_msvc native st) = tu_included st ++ [Include "ctype.h"].
Proof. unfold strings_msvc, seq. by rewrite !tu_included_ifndef_define. Qed.

Lemma tu_included_unistd_msvc native st :
  tu_included (unistd_msvc native st)
  = tu_included st ++ [Include "direct.h"; Include "io.h";
                       Include "process.h"; Include "stdlib.h"].
Proof.
  unfold unistd_msvc, seq.
  rewrite !tu_included_define.
  rewrite !tu_included_ifndef_define, tu_included_ifndef_typedef.
  simpl. by rewrite <- !app_assoc.
Qed.

(** ** Names that stay defined *)

Lemma stays_define y x m : stays y (define x m).
Proof. intros st Hy. rewrite defined_define. by case_decide. Qed.

Lemma stays_typedef y ty x : stays y (typedef ty x).
Proof. by intros st Hy. Qed.

Lemma stays_ifndef y x d : stays y d → stays y (ifndef x d).
Proof.
  intros Hd st Hy. unfold ifndef. destruct (defined x st); [done |].
  by apply Hd.
Qed.

Lemma stays_ifdef y x d : stays y d → stays y (ifdef x d).
Proof.
  intros Hd st Hy. unfold ifdef. destruct (defined x st); [| done].
  by apply Hd.
Qed.

Lemma stays_ifdef_else y x d1 d2 :
  stays y d1 → stays y d2 → stays y (ifdef_else x d1 d2).
Proof.
  intros H1 H2 st Hy. unfold ifdef_else.
  destruct (defined x st); [by apply H1 | by apply H2].
Qed.

Lemma stays_seq y d1 d2 : stays y d1 → stays y d2 → stays y (d1 >>> d2).
Proof. intros H1 H2 st Hy. unfold seq. by apply H2, H1. Qed.

Lemma stays_include native y h :
  keeps_defined native y → stays y (include native h).
Proof.
  intros Hk st Hy. apply defined_true. apply defined_true in Hy.
  by apply Hk.
Qed.

Lemma stays_include_next native y h :
  keeps_defined native y → stays y (include_next native h).
Proof.
  intros Hk st Hy. apply defined_true. apply defined_true in Hy.
  by apply Hk.
Qed.

Lemma strings_msvc_stays native y :
  keeps_defined native y → stays y (strings_msvc native).
Proof.
  intros Hk. unfold strings_msvc.
  repeat first
    [ apply stays_ifndef | apply stays_seq | apply stays_define
    | by apply stays_include ].
Qed.

Lemma unistd_msvc_stays native y :
  keeps_defined native y → stays y (unistd_msvc native).
Proof.
  intros Hk. unfold unistd_msvc.
  repeat first
    [ apply stays_ifndef | apply stays_seq | apply stays_define
    | apply stays_typedef | by apply stays_include ].
Qed.

Lemma strings_h_stays native y :
  keeps_defined native y → stays y (strings_h native).
Proof.
  intros Hk. unfold strings_h.
  repeat first
    [ by apply strings_msvc_stays | by apply stays_include
    | apply stays_ifndef | apply stays_ifdef | apply stays_seq
    | apply stays_define ].
Qed.

Lemma unistd_h_stays native y :
  keeps_defined native y → stays y (unistd_h native).
Proof.
  intros Hk. unfold unistd_h.
  repeat first
    [ by apply unistd_msvc_stays | by apply stays_include_next
    | apply stays_ifndef | apply stays_ifdef_else | apply stays_seq
    | apply stays_define ].
Qed.

(** After an inclusion the guard macro of the header is defined. *)
Lemma strings_guard_kept native st :
  keeps_defined native STRINGS_GUARD →
  defined STRINGS_GUARD (strings_h native st) = true.
Proof.
  intros Hk. destruct (defined STRINGS_GUARD st) eqn:Hg.
  { by apply strings_h_stays. }
  rewrite strings_h_first by done.
  apply stays_ifdef; [by apply strings_msvc_stays |].
  apply stays_include; [done |].
  rewrite defined_define. by case_decide.
Qed.

Lemma unistd_guard_kept native st :
  keeps_defined native UNISTD_GUARD →
  defined UNISTD_GUARD (unistd_h native st) = true.
Proof.
  intros Hk. destruct (defined UNISTD_GUARD st) eqn:Hg.
  { by apply unistd_h_stays. }
  rewrite unistd_h_first by done.
  apply stays_ifdef_else;
    [by apply unistd_msvc_stays | by apply stays_include_next |].
  rewrite defined_define. by case_decide.
Qed.

Lemma marking_native_keeps_defined x : keeps_defined marking_native x.
Proof.
  intros h e [m Hm]. unfold marking_native. simpl.
  rewrite lookup_insert. case_decide; eauto.
Qed.


Lemma reentrant_native_keeps_defined x : keeps_defined reentrant_native x.
Proof.
  intros h e Hx. unfold reentrant_native. case_decide.
  - apply defined_true.
    apply (strings_h_stays marking_native x);
      [apply marking_native_keeps_defined |].
    apply defined_true. by apply marking_native_keeps_defined.
  - by apply marking_native_keeps_defined.
Qed.

(** * The claims *)

(** ** C9 *)

(** C9: under the Microsoft runtime a definition of one of the eight names
    strcasecmp, strncasecmp, bzero, ssize_t, F_OK, X_OK, W_OK, R_OK that
    exists before the inclusion is left unchanged by both headers, and on
    the inclusion of its header a name that was undefined receives the
    definition of the shim: the macro for the seven macro names, one more
    typedef of ssize_t as long exactly when no macro ssize_t is defined. *)
Theorem guarded_names_respect_existing native st :
  preserves native (MSC_VER :: guarded_names) →
  keeps_typedef native "ssize_t" →
  defined MSC_VER st = true →
  (∀ x d, x ∈ guarded_names → macro_of st x = Some d →
     macro_of (strings_h native st) x = Some d
     ∧ macro_of (unistd_h native st) x = Some d)
  ∧ (defined STRINGS_GUARD st = false →
     ∀ x m, (x, m) ∈ strings_guarded → macro_of st x = None →
       macro_of (strings_h native st) x = Some m)
  ∧ (defined UNISTD_GUARD st = false →
     (∀ x m, (x, m) ∈ unistd_guarded → macro_of st x = None →
        macro_of (unistd_h native st) x = Some m)
     ∧ typedefs_of "ssize_t" (tu_env (unistd_h native st))
       = typedefs_of "ssize_t" (tu_env st)
         ++ (if defined "ssize_t" st then [] else [CLong])).
Proof.
  intros Hp Hk Hm.
  assert (∀ x, x ∈ guarded_names → preserves native [x]) as Hp1.
  { intros x Hx. apply (preserves_elem native (MSC_VER :: guarded_names));
      [done | by constructor]. }
  assert (preserves native [MSC_VER]) as Hpm.
  { apply (preserves_elem native (MSC_VER :: guarded_names));
      [done | constructor]. }
  split; [| split].
  - intros x d Hx Hd. split.
    + apply strings_h_keeps; auto.
    + apply unistd_h_keeps; auto.
      intros Hin. unfold guarded_names in Hx. simpl in Hin.
      split_members Hx; split_members Hin.
  - intros Hg x m Hx Hn. rewrite strings_h_msvc by done.
    assert (x ∈ guarded_names) as Hxg.
    { unfold strings_guarded in Hx. unfold guarded_names.
      split_members Hx; repeat constructor. }
    rewrite (macro_of_strings_msvc_guarded native _ x m) by auto.
    rewrite macro_of_include_own, macro_of_define by auto.
    case_decide as Heq; [| by rewrite Hn].
    subst x. unfold strings_guarded in Hx. split_members Hx.
  - intros Hg. rewrite unistd_h_msvc by done. split.
    + intros x m Hx Hn.
      assert (x ∈ guarded_names) as Hxg.
      { unfold unistd_guarded in Hx. unfold guarded_names.
        split_members Hx; repeat constructor. }
      rewrite (macro_of_unistd_msvc_guarded native _ x m) by auto.
      rewrite macro_of_define.
      case_decide as Heq; [| by rewrite Hn].
      subst x. unfold unistd_guarded in Hx. split_members Hx.
    + rewrite typedefs_of_unistd_msvc; [| | done].
      * by rewrite typedefs_of_define, defined_define.
      * apply Hp1. unfold guarded_names. repeat constructor.
Qed.

Lemma guarded_names_respect_existing_witness :
  macro_of (unistd_h marking_native predefined_tu) "F_OK"
    = Some (ObjectLike [TNum 1])
  ∧ macro_of (unistd_h marking_native predefined_tu) "R_OK"
    = Some (ObjectLike [TNum 4])
  ∧ typedefs_of "ssize_t" (tu_env (unistd_h marking_native predefined_tu))
    = [CLong].
Proof.
  destruct (guarded_names_respect_existing marking_native predefined_tu)
    as (Hkept & _ & Hunistd).
  - apply marking_native_preserves. by repeat constructor.
  - apply marking_native_keeps_typedef.
  - reflexivity.
  - destruct (Hunistd eq_refl) as (Hnew & Htd). split; [| split].
    + apply (Hkept "F_OK"); [by repeat constructor | reflexivity].
    + apply (Hnew "R_OK" R_OK); [by repeat constructor | reflexivity].
    + exact Htd.
Defined.

(** ** C10 *)

Lemma define_fresh x st :
  defined x st = false →
  define x (ObjectLike []) st
  = TU (with_guard x st) (tu_included st) (tu_diags st).
Proof.
  intros Hx. apply defined_false in Hx. unfold define, with_guard.
  unfold macro_of in Hx. rewrite Hx. by rewrite app_nil_r.
Qed.

Lemma strings_h_after_string_h native st :
  defined STRINGS_GUARD st = false →
  strings_h native st
  = ifdef MSC_VER (strings_msvc native)
      (TU (native "string.h" (with_guard STRINGS_GUARD st))
          (tu_included st ++ [Include "string.h"]) (tu_diags st)).
Proof.
  intros Hg. rewrite strings_h_first by done. by rewrite define_fresh.
Qed.

(** C10: whatever the status of _MSC_VER, a first inclusion of the shim
    strings.h defines KREUZBERG_RUBY_STRINGS_H and then includes <string.h>,
    before the test of _MSC_VER.  The request of <string.h> is the first
    the header makes; every macro the system's string.h provides is
    defined after the inclusion (the system headers not undefining it);
    where _MSC_VER is not defined after <string.h>, as on a POSIX runtime,
    the environment after the inclusion is the very one the system's
    string.h produces from the environment extended by the guard, and
    where it is defined that environment is the one the Microsoft branch
    goes on from.  The guard macro is defined after every inclusion. *)
Theorem strings_h_includes_string_h native st :
  (keeps_defined native STRINGS_GUARD →
     defined STRINGS_GUARD (strings_h native st) = true)
  ∧ (defined STRINGS_GUARD st = false →
     (∃ rest, tu_included (strings_h native st)
              = tu_included st ++ Include "string.h" :: rest)
     ∧ (∀ x, keeps_defined native x →
          is_Some (macros (native "string.h" (with_guard STRINGS_GUARD st))
                     !! x) →
          defined x (strings_h native st) = true)
     ∧ (macros (native "string.h" (with_guard STRINGS_GUARD st)) !! MSC_VER
          = None →
        tu_env (strings_h native st)
        = native "string.h" (with_guard STRINGS_GUARD st))
     ∧ (is_Some (macros (native "string.h" (with_guard STRINGS_GUARD st))
                   !! MSC_VER) →
        tu_env (strings_h native st)
        = tu_env (strings_msvc native
                    (TU (native "string.h" (with_guard STRINGS_GUARD st))
                        (tu_included st ++ [Include "string.h"])
                        (tu_diags st))))).
Proof.
  split; [apply strings_guard_kept |].
  intros Hg. rewrite strings_h_after_string_h by done.
  split; [| split; [| split]].
  - unfold ifdef. destruct (defined MSC_VER _).
    + rewrite tu_included_strings_msvc. simpl.
      exists [Include "ctype.h"]. by rewrite <- app_assoc.
    + by exists [].
  - intros x Hk Hx.
    apply stays_ifdef; [by apply strings_msvc_stays |].
    by apply defined_true.
  - intros Hn. unfold ifdef.
    assert (defined MSC_VER
              (TU (native "string.h" (with_guard STRINGS_GUARD st))
                  (tu_included st ++ [Include "string.h"]) (tu_diags st))
            = false) as -> by (by apply defined_false).
    reflexivity.
  - intros Hy. unfold ifdef.
    assert (defined MSC_VER
              (TU (native "string.h" (with_guard STRINGS_GUARD st))
                  (tu_included st ++ [Include "string.h"]) (tu_diags st))
            = true) as -> by (by apply defined_true).
    reflexivity.
Qed.

Lemma strings_h_includes_string_h_witness :
  defined STRINGS_GUARD (strings_h reentrant_native empty_tu) = true
  ∧ defined "_INC_string.h" (strings_h reentrant_native empty_tu) = true
  ∧ tu_env (strings_h reentrant_native empty_tu)
    = reentrant_native "string.h" (with_guard STRINGS_GUARD empty_tu).
Proof.
  destruct (strings_h_includes_string_h reentrant_native empty_tu)
    as [Hg Hfirst].
  destruct (Hfirst eq_refl) as (_ & Hvisible & Hposix & _).
  split; [| split].
  - apply Hg. apply reentrant_native_keeps_defined.
  - apply Hvisible; [apply reentrant_native_keeps_defined |].
    vm_compute. eauto.
  - apply Hposix. vm_compute. reflexivity.
Defined.

(** ** C1 *)


Lemma unistd_h_posix_state native st :
  defined MSC_VER st = false → defined UNISTD_GUARD st = false →
  unistd_h native st
  = TU (native "unistd.h" (with_guard UNISTD_GUARD st))
       (tu_included st ++ [IncludeNext "unistd.h"]) (tu_diags st).
Proof.
  intros Hm Hg. rewrite unistd_h_posix by done. by rewrite define_fresh.
Qed.



(** ** C2 *)

(** C2, counterexample: the definition of access in unistd.h has no check
    of its own; in a translation unit that already defines access
    differently the first inclusion raises a redefinition diagnostic and
    replaces the definition. *)
Lemma unguarded_alias_clashes :
  tu_diags clashing_tu = []
  ∧ tu_diags (unistd_h marking_native clashing_tu)
    = [MacroRedefinition "access"]
  ∧ macro_of clashing_tu "access" = Some (ObjectLike [TId "rb_w32_access"])
  ∧ macro_of (unistd_h marking_native clashing_tu) "access"
    = Some (ObjectLike [TId "_access"]).
Proof. vm_compute. by repeat split. Qed.

Section Diagnostics.

Variable native : string → env → env.

Lemma tu_diags_include h st :
  tu_diags (include native h st) = tu_diags st.
Proof. reflexivity. Qed.

Lemma tu_diags_strings_h st : tu_diags (strings_h native st) = tu_diags st.
Proof.
  destruct (defined STRINGS_GUARD st) eqn:Hg.
  { by rewrite strings_h_again. }
  rewrite strings_h_first by done.
  assert (tu_diags (include native "string.h"
            (define STRINGS_GUARD (ObjectLike []) st)) = tu_diags st) as Hd.
  { rewrite tu_diags_include. apply tu_diags_define_quiet. left.
    by apply defined_false. }
  unfold ifdef. destruct (defined MSC_VER _); [| done].
  unfold strings_msvc, seq. by rewrite !tu_diags_ifndef_define.
Qed.

Lemma tu_diags_ifndef_typedef_quiet st :
  defined "ssize_t" st = true
  ∨ Forall (λ ty, ty = CLong) (typedefs_of "ssize_t" (tu_env st)) →
  tu_diags (ifndef "ssize_t" (typedef CLong "ssize_t") st) = tu_diags st.
Proof.
  intros H. unfold ifndef. destruct (defined "ssize_t" st); [done |].
  destruct H as [H | H]; [done |]. unfold typedef. simpl.
  rewrite decide_True by done. apply app_nil_r.
Qed.

(** Lookup of an alias name at the point of its [#define]. *)
Ltac alias_lookup :=
  repeat progress
    (rewrite ?macro_of_define, ?macro_of_ifndef_define,
       ?macro_of_ifndef_typedef; simpl);
  rewrite macro_of_includes_unistd.

Lemma tu_diags_unistd_msvc st :
  preserves native ("ssize_t" :: unistd_aliases.*1) →
  keeps_typedef native "ssize_t" →
  (∀ x t, (x, t) ∈ unistd_aliases →
     macro_of st x = None ∨ macro_of st x = Some (alias t)) →
  defined "ssize_t" st = true
  ∨ Forall (λ ty, ty = CLong) (typedefs_of "ssize_t" (tu_env st)) →
  tu_diags (unistd_msvc native st) = tu_diags st.
Proof.
  intros Hp Hk Ha Ht.
  assert (∀ x, x ∈ "ssize_t" :: unistd_aliases.*1 → preserves native [x])
    as Hp1 by (intros x Hx; by eapply preserves_elem).
  unfold unistd_msvc, seq.
  repeat (rewrite tu_diags_define_quiet;
          [| alias_lookup;
             [apply Ha; unfold unistd_aliases; by repeat constructor
             | apply Hp1; simpl; by repeat constructor]]).
  rewrite !tu_diags_ifndef_define.
  rewrite tu_diags_ifndef_typedef_quiet; [by rewrite !tu_diags_include |].
  unfold defined. rewrite macro_of_includes_unistd
    by (apply Hp1; constructor).
  by rewrite !typedefs_of_include.
Qed.

Lemma tu_diags_unistd_h st :
  preserves native ("ssize_t" :: unistd_aliases.*1) →
  keeps_typedef native "ssize_t" →
  (∀ x t, (x, t) ∈ unistd_aliases →
     macro_of st x = None ∨ macro_of st x = Some (alias t)) →
  defined "ssize_t" st = true
  ∨ Forall (λ ty, ty = CLong) (typedefs_of "ssize_t" (tu_env st)) →
  tu_diags (unistd_h native st) = tu_diags st.
Proof.
  intros Hp Hk Ha Ht. destruct (defined UNISTD_GUARD st) eqn:Hg.
  { by rewrite unistd_h_again. }
  rewrite unistd_h_first by done.
  assert (tu_diags (define UNISTD_GUARD (ObjectLike []) st) = tu_diags st)
    as Hd.
  { apply tu_diags_define_quiet. left. by apply defined_false. }
  unfold ifdef_else. destruct (defined MSC_VER _); [| done].
  rewrite tu_diags_unistd_msvc; try done.
  - intros x t Hx. rewrite macro_of_define.
    case_decide as Heq; [| by apply Ha].
    subst x. unfold unistd_aliases in Hx. split_members Hx.
  - by rewrite defined_define, typedefs_of_define.
Qed.

End Diagnostics.

(** The state in which unistd.h, under [_MSC_VER], reaches its definitions:
    after its four system headers. *)
Lemma tu_diags_unistd_msvc_at native st :
  (∀ x t, (x, t) ∈ unistd_aliases →
     macro_of (include native "stdlib.h" (include native "process.h"
       (include native "io.h" (include native "direct.h" st)))) x = None
     ∨ macro_of (include native "stdlib.h" (include native "process.h"
         (include native "io.h" (include native "direct.h" st)))) x
       = Some (alias t)) →
  defined "ssize_t" (include native "stdlib.h" (include native "process.h"
    (include native "io.h" (include native "direct.h" st)))) = true
  ∨ Forall (λ ty, ty = CLong)
      (typedefs_of "ssize_t"
         (tu_env (include native "stdlib.h" (include native "process.h"
           (include native "io.h" (include native "direct.h" st)))))) →
  tu_diags (unistd_msvc native st) = tu_diags st.
Proof.
  unfold unistd_msvc, seq.
  assert (tu_diags (include native "stdlib.h" (include native "process.h"
            (include native "io.h" (include native "direct.h" st))))
          = tu_diags st) as Hd by reflexivity.
  revert Hd.
  generalize (include native "stdlib.h" (include native "process.h"
    (include native "io.h" (include native "direct.h" st)))).
  intros st4 Hd Ha Ht.
  repeat (rewrite tu_diags_define_quiet;
          [| repeat progress
               (rewrite ?macro_of_define, ?macro_of_ifndef_define,
                  ?macro_of_ifndef_typedef; simpl);
             apply Ha; unfold unistd_aliases; by repeat constructor]).
  rewrite !tu_diags_ifndef_define.
  by rewrite tu_diags_ifndef_typedef_quiet.
Qed.

(** C2, amended: each header as a whole is protected by its guard macro,
    the ten aliases of unistd.h having no check of their own.  Including a
    header whose guard macro is defined changes nothing and raises
    nothing, so that, the system headers leaving the guard macro defined,
    any number of inclusions has the effect of one.  strings.h never
    raises a redefinition diagnostic.  unistd.h raises none without
    _MSC_VER, and none under _MSC_VER when, at the point of its
    definitions (after its four system headers), no alias name is defined
    as a macro with another replacement and ssize_t is a macro or has no
    typedef to a type other than long; that is so in particular when it
    holds before the inclusion and the system headers leave these names
    and the typedefs of ssize_t alone. *)
Theorem inclusion_idempotent native st :
  (defined STRINGS_GUARD st = true → strings_h native st = st)
  ∧ (defined UNISTD_GUARD st = true → unistd_h native st = st)
  ∧ (keeps_defined native STRINGS_GUARD →
     ∀ n, Nat.iter (S n) (strings_h native) st = strings_h native st)
  ∧ (keeps_defined native UNISTD_GUARD →
     ∀ n, Nat.iter (S n) (unistd_h native) st = unistd_h native st)
  ∧ tu_diags (strings_h native st) = tu_diags st
  ∧ (defined MSC_VER st = false →
     tu_diags (unistd_h native st) = tu_diags st)
  ∧ (defined UNISTD_GUARD st = false → defined MSC_VER st = true →
     (∀ x t, (x, t) ∈ unistd_aliases →
        macro_of (include native "stdlib.h" (include native "process.h"
          (include native "io.h" (include native "direct.h"
            (define UNISTD_GUARD (ObjectLike []) st))))) x = None
        ∨ macro_of (include native "stdlib.h" (include native "process.h"
            (include native "io.h" (include native "direct.h"
              (define UNISTD_GUARD (ObjectLike []) st))))) x
          = Some (alias t)) →
     defined "ssize_t" (include native "stdlib.h" (include native "process.h"
       (include native "io.h" (include native "direct.h"
         (define UNISTD_GUARD (ObjectLike []) st))))) = true
     ∨ Forall (λ ty, ty = CLong)
         (typedefs_of "ssize_t"
            (tu_env (include native "stdlib.h" (include native "process.h"
              (include native "io.h" (include native "direct.h"
                (define UNISTD_GUARD (ObjectLike []) st))))))) →
     tu_diags (unistd_h native st) = tu_diags st)
  ∧ (preserves native ("ssize_t" :: unistd_aliases.*1) →
     keeps_typedef native "ssize_t" →
     (∀ x t, (x, t) ∈ unistd_aliases →
        macro_of st x = None ∨ macro_of st x = Some (alias t)) →
     defined "ssize_t" st = true
     ∨ Forall (λ ty, ty = CLong) (typedefs_of "ssize_t" (tu_env st)) →
     tu_diags (unistd_h native st) = tu_diags st).
Proof.
  split; [apply strings_h_again |]. split; [apply unistd_h_again |].
  split; [| split; [| split; [| split; [| split]]]].
  - intros Hk. induction n as [| n IH]; [done |].
    change (Nat.iter (S (S n)) (strings_h native) st)
      with (strings_h native (Nat.iter (S n) (strings_h native) st)).
    rewrite IH. apply strings_h_again. by apply strings_guard_kept.
  - intros Hk. induction n as [| n IH]; [done |].
    change (Nat.iter (S (S n)) (unistd_h native) st)
      with (unistd_h native (Nat.iter (S n) (unistd_h native) st)).
    rewrite IH. apply unistd_h_again. by apply unistd_guard_kept.
  - apply tu_diags_strings_h.
  - intros Hm. destruct (defined UNISTD_GUARD st) eqn:Hg.
    { by rewrite unistd_h_again. }
    by rewrite unistd_h_posix_state.
  - intros Hg Hm Ha Ht. rewrite unistd_h_msvc by done.
    rewrite tu_diags_unistd_msvc_at by done.
    apply tu_diags_define_quiet. left. by apply defined_false.
  - apply tu_diags_unistd_h.
Qed.

Lemma inclusion_idempotent_witness :
  Nat.iter 3 (strings_h reentrant_native) msvc_tu
    = strings_h reentrant_native msvc_tu
  ∧ unistd_h reentrant_native (unistd_h reentrant_native msvc_tu)
    = unistd_h reentrant_native msvc_tu
  ∧ tu_diags (unistd_h reentrant_native msvc_tu) = [].
Proof.
  destruct (inclusion_idempotent reentrant_native msvc_tu)
    as (_ & _ & Hs & Hu & _ & _ & Hd & _).
  split; [| split].
  - apply (Hs (reentrant_native_keeps_defined _) 2%nat).
  - apply (Hu (reentrant_native_keeps_defined _) 1%nat).
  - apply Hd.
    + reflexivity.
    + reflexivity.
    + intros x t Hx. left. unfold unistd_aliases in Hx.
      by split_members Hx.
    + right. constructor.
Defined.

(** ** C8 *)

(** C8: under the Microsoft runtime, with the shim's definition of the
    name in force and the runtime name not itself a macro, a call
    [f(args)] through one of the twelve aliased names is, after
    preprocessing, the call [g(args)] of the runtime function the alias
    names, on the same arguments: its value, error values included, is the
    value the runtime function returns. *)
Theorem aliased_calls_forward native crt st :
  defined MSC_VER st = true →
  (defined UNISTD_GUARD st = false →
   preserves native unistd_aliases.*2 →
   undefined_in st unistd_aliases.*2 →
   ∀ f g args fuel,
     (f, g) ∈ unistd_aliases →
     Forall (plain_argument (macros (tu_env (unistd_h native st)))) args →
     (2 * length args + 5 ≤ fuel)%nat →
     through_shim crt fuel (macros (tu_env (unistd_h native st)))
       (call f (single args))
     = Some (crt g (single args)))
  ∧ (defined STRINGS_GUARD st = false →
     preserves native (MSC_VER :: strings_aliases.*1 ++ strings_aliases.*2) →
     undefined_in st (strings_aliases.*1 ++ strings_aliases.*2) →
     ∀ f g args fuel,
       (f, g) ∈ strings_aliases →
       Forall (plain_argument (macros (tu_env (strings_h native st)))) args →
       (2 * length args + 5 ≤ fuel)%nat →
       through_shim crt fuel (macros (tu_env (strings_h native st)))
         (call f (single args))
       = Some (crt g (single args))).
Proof.
  intros Hm. split.
  - intros Hg Hp Hu f g args fuel Hfg Hargs Hfuel.
    assert (g ∈ unistd_aliases.*2) as Hgin.
    { apply list_elem_of_fmap. by exists (f, g). }
    apply through_shim_alias; try done.
    + by apply unistd_h_alias_lookup.
    + change (macro_of (unistd_h native st) g = None).
      rewrite unistd_h_other_lookup; try done.
      * by apply Hu.
      * unfold unistd_aliases in Hfg. unfold unistd_surface.
        split_members Hfg; intros Hin; split_members Hin.
      * unfold unistd_aliases in Hfg. split_members Hfg; done.
      * by eapply preserves_elem.
  - intros Hg Hp Hu f g args fuel Hfg Hargs Hfuel.
    assert (preserves native [MSC_VER]) as Hpm.
    { eapply preserves_elem; [done | constructor]. }
    assert (f ∈ strings_aliases.*1 ++ strings_aliases.*2) as Hfin.
    { unfold strings_aliases in *. simpl.
      split_members Hfg; by repeat constructor. }
    assert (g ∈ strings_aliases.*1 ++ strings_aliases.*2) as Hgin.
    { unfold strings_aliases in *. simpl.
      split_members Hfg; by repeat constructor. }
    apply through_shim_alias; try done.
    + change (macro_of (strings_h native st) f = Some (alias g)).
      rewrite (strings_h_guarded_lookup native st f (alias g)); try done.
      * by rewrite (Hu f).
      * unfold strings_aliases in Hfg. unfold strings_guarded.
        split_members Hfg; by repeat constructor.
      * apply (preserves_elem native _ _ Hp). by constructor.
    + change (macro_of (strings_h native st) g = None).
      rewrite strings_h_other_lookup; try done.
      * by apply Hu.
      * unfold strings_aliases in Hfg. unfold strings_surface.
        split_members Hfg; intros Hin; split_members Hin.
      * unfold strings_aliases in Hfg. split_members Hfg; done.
      * apply (preserves_elem native _ _ Hp). by constructor.
Qed.

Lemma aliased_calls_forward_witness :
  through_shim sample_crt 11
    (macros (tu_env (unistd_h marking_native msvc_tu)))
    (call "read" (single [TNum 3; TId "buf"; TNum 100]))
  = Some (sample_crt "_read" (single [TNum 3; TId "buf"; TNum 100])).
Proof.
  destruct (aliased_calls_forward marking_native sample_crt msvc_tu eq_refl)
    as [Hu _].
  apply Hu.
  - reflexivity.
  - apply marking_native_preserves. by repeat constructor.
  - intros x Hx. simpl in Hx. by split_members Hx.
  - by repeat constructor.
  - repeat constructor.
  - simpl. lia.
Defined.

(** ** C7 *)

(** C7: under the Microsoft runtime, with F_OK defined by the shim and
    _access not a macro, the call access(path, F_OK) is after preprocessing
    the call _access(path, 0): its value is the value of the runtime's
    existence check, so it reports success exactly when that check does. *)
Theorem access_F_OK_iff_native native crt st :
  defined MSC_VER st = true → defined UNISTD_GUARD st = false →
  preserves native ["F_OK"; "_access"] →
  undefined_in st ["F_OK"; "_access"] →
  ∀ path fuel, (9 ≤ fuel)%nat →
    through_shim crt fuel (macros (tu_env (unistd_h native st)))
      (call "access" [[TStr path]; [TId "F_OK"]])
    = Some (crt "_access" [[TStr path]; [TNum 0]])
    ∧ (success (through_shim crt fuel (macros (tu_env (unistd_h native st)))
                  (call "access" [[TStr path]; [TId "F_OK"]]))
       ↔ crt "_access" [[TStr path]; [TNum 0]] = 0).
Proof.
  intros Hm Hg Hp Hu path fuel Hfuel.
  assert (through_shim crt fuel (macros (tu_env (unistd_h native st)))
            (call "access" [[TStr path]; [TId "F_OK"]])
          = Some (crt "_access" [[TStr path]; [TNum 0]])) as Heq.
  { apply through_shim_access_mode; [| | | done].
    - apply unistd_h_alias_lookup; [done | done |].
      unfold unistd_aliases. by repeat constructor.
    - change (macro_of (unistd_h native st) "_access" = None).
      rewrite unistd_h_other_lookup; try done.
      + apply Hu. by repeat constructor.
      + intros Hin. unfold unistd_surface in Hin. split_members Hin.
      + apply (preserves_elem native _ _ Hp). by repeat constructor.
    - change (macro_of (unistd_h native st) "F_OK"
              = Some (ObjectLike [TNum 0])).
      rewrite (unistd_h_guarded_lookup native st "F_OK" F_OK); try done.
      + rewrite (Hu "F_OK"); [done | by repeat constructor].
      + unfold unistd_guarded. by repeat constructor.
      + apply (preserves_elem native _ _ Hp). by repeat constructor. }
  split; [exact Heq |]. rewrite Heq. unfold success.
  split; [by intros [=] | by intros ->].
Qed.

Lemma access_F_OK_iff_native_witness :
  success (through_shim existence_crt 9
             (macros (tu_env (unistd_h marking_native msvc_tu)))
             (call "access" [[TStr "C:\tmp"]; [TId "F_OK"]])).
Proof.
  destruct (access_F_OK_iff_native marking_native existence_crt msvc_tu
              eq_refl eq_refl) with (path := "C:\tmp") (fuel := 9%nat)
    as [_ Hiff].
  - apply marking_native_preserves. by repeat constructor.
  - intros x Hx. by split_members Hx.
  - lia.
  - apply Hiff. reflexivity.
Defined.

(** ** C6 *)

(** C6: under the Microsoft runtime, on a first inclusion of unistd.h in a
    translation unit that does not define them, F_OK, X_OK, W_OK and R_OK
    are the constants 0, 0, 2 and 4.  X_OK and F_OK are replaced by the
    same constant, so an execute-permission check [access(path, X_OK)] is
    the same runtime call as the existence check [access(path, F_OK)]. *)
Theorem access_mode_constants native st :
  defined MSC_VER st = true → defined UNISTD_GUARD st = false →
  preserves native ["F_OK"; "X_OK"; "W_OK"; "R_OK"; "_access"] →
  undefined_in st ["F_OK"; "X_OK"; "W_OK"; "R_OK"; "_access"] →
  macro_of (unistd_h native st) "F_OK" = Some (ObjectLike [TNum 0])
  ∧ macro_of (unistd_h native st) "X_OK" = Some (ObjectLike [TNum 0])
  ∧ macro_of (unistd_h native st) "W_OK" = Some (ObjectLike [TNum 2])
  ∧ macro_of (unistd_h native st) "R_OK" = Some (ObjectLike [TNum 4])
  ∧ (∀ fuel, (3 ≤ fuel)%nat →
     preprocess fuel (macros (tu_env (unistd_h native st))) [TId "X_OK"]
     = Some [TNum 0]
     ∧ preprocess fuel (macros (tu_env (unistd_h native st))) [TId "F_OK"]
       = Some [TNum 0])
  ∧ (∀ crt path fuel, (9 ≤ fuel)%nat →
     through_shim crt fuel (macros (tu_env (unistd_h native st)))
       (call "access" [[TStr path]; [TId "X_OK"]])
     = through_shim crt fuel (macros (tu_env (unistd_h native st)))
         (call "access" [[TStr path]; [TId "F_OK"]])).
Proof.
  intros Hm Hg Hp Hu.
  assert (∀ x m, (x, m) ∈ unistd_guarded →
            macro_of (unistd_h native st) x = Some m) as Hc.
  { intros x m Hx.
    assert (x ∈ ["F_OK"; "X_OK"; "W_OK"; "R_OK"; "_access"]) as Hin.
    { unfold unistd_guarded in Hx. split_members Hx; by repeat constructor. }
    rewrite (unistd_h_guarded_lookup native st x m); try done.
    - by rewrite (Hu x).
    - by apply (preserves_elem native _ _ Hp). }
  assert (macro_of (unistd_h native st) "F_OK" = Some (ObjectLike [TNum 0]))
    as HF by (apply (Hc "F_OK" F_OK); unfold unistd_guarded;
              by repeat constructor).
  assert (macro_of (unistd_h native st) "X_OK" = Some (ObjectLike [TNum 0]))
    as HX by (apply (Hc "X_OK" X_OK); unfold unistd_guarded;
              by repeat constructor).
  split; [exact HF |]. split; [exact HX |].
  split; [apply (Hc "W_OK" W_OK); unfold unistd_guarded;
          by repeat constructor |].
  split; [apply (Hc "R_OK" R_OK); unfold unistd_guarded;
          by repeat constructor |].
  split.
  - intros fuel Hfuel. split; by apply preprocess_constant.
  - intros crt path fuel Hfuel.
    assert (macro_of (unistd_h native st) "access" = Some (alias "_access"))
      as Ha.
    { apply unistd_h_alias_lookup; [done | done |].
      unfold unistd_aliases. by repeat constructor. }
    assert (macro_of (unistd_h native st) "_access" = None) as Hn.
    { rewrite unistd_h_other_lookup; try done.
      - apply Hu. by repeat constructor.
      - intros Hin. unfold unistd_surface in Hin. split_members Hin.
      - apply (preserves_elem native _ _ Hp). by repeat constructor. }
    by rewrite !(through_shim_access_mode crt _ path _ 0).
Qed.

Lemma access_mode_constants_witness :
  macro_of (unistd_h marking_native msvc_tu) "F_OK"
    = Some (ObjectLike [TNum 0])
  ∧ macro_of (unistd_h marking_native msvc_tu) "X_OK"
    = Some (ObjectLike [TNum 0])
  ∧ macro_of (unistd_h marking_native msvc_tu) "W_OK"
    = Some (ObjectLike [TNum 2])
  ∧ macro_of (unistd_h marking_native msvc_tu) "R_OK"
    = Some (ObjectLike [TNum 4]).
Proof.
  destruct (access_mode_constants marking_native msvc_tu eq_refl eq_refl)
    as (HF & HX & HW & HR & _).
  - apply marking_native_preserves. by repeat constructor.
  - intros x Hx. by split_members Hx.
  - by repeat split.
Defined.

(** ** C5 *)

(** C5: under the Microsoft runtime, with the shim's definition of bzero
    in force and memset not a macro, the statement [bzero(buf, n)] is after
    preprocessing the call [memset((buf), 0, (n))]; executed on a memory
    in which the [n >= 0] bytes from [buf] are allocated it terminates, and
    every byte of [buf[0..n)] reads 0 afterwards. *)
Theorem bzero_zero_fills native st :
  preserves native [MSC_VER; "bzero"; "memset"] →
  defined MSC_VER st = true → defined STRINGS_GUARD st = false →
  undefined_in st ["bzero"; "memset"] →
  ∀ (m : gmap Z Z) buf n fuel,
    0 ≤ n → (∀ i, 0 ≤ i < n → is_Some (m !! (buf + i))) →
    (17 ≤ fuel)%nat →
    preprocess fuel (macros (tu_env (strings_h native st)))
      (call "bzero" [[TNum buf]; [TNum n]])
    = Some (call "memset"
              [[TPunct "("; TNum buf; TPunct ")"]; [TNum 0];
               [TPunct "("; TNum n; TPunct ")"]])
    ∧ ∃ m', (preprocess fuel (macros (tu_env (strings_h native st)))
               (call "bzero" [[TNum buf]; [TNum n]]) ≫= exec m) = Some m'
            ∧ ∀ i, 0 ≤ i < n → m' !! (buf + i) = Some 0.
Proof.
  intros Hp Hm Hg Hu m buf n fuel Hn Halloc Hfuel.
  assert (preserves native [MSC_VER]) as Hpm.
  { apply (preserves_elem native _ _ Hp). constructor. }
  assert (preprocess fuel (macros (tu_env (strings_h native st)))
            (call "bzero" [[TNum buf]; [TNum n]])
          = Some (call "memset"
                    [[TPunct "("; TNum buf; TPunct ")"]; [TNum 0];
                     [TPunct "("; TNum n; TPunct ")"]])) as Heq.
  { apply (preprocess_bzero_call _ (TNum buf) (TNum n)); try done.
    - change (macro_of (strings_h native st) "bzero" = Some bzero_macro).
      rewrite (strings_h_guarded_lookup native st "bzero" bzero_macro);
        try done.
      + rewrite (Hu "bzero"); [done | by repeat constructor].
      + unfold strings_guarded. by repeat constructor.
      + apply (preserves_elem native _ _ Hp). by repeat constructor.
    - change (macro_of (strings_h native st) "memset" = None).
      rewrite strings_h_other_lookup; try done.
      + apply Hu. by repeat constructor.
      + intros Hin. unfold strings_surface in Hin. split_members Hin.
      + apply (preserves_elem native _ _ Hp). by repeat constructor. }
  split; [exact Heq |]. rewrite Heq.
  destruct (memset_zero m buf n Hn Halloc) as (m' & Hset & Hzero).
  exists m'. split; [| exact Hzero].
  change (exec m (call "memset"
            [[TPunct "("; TNum buf; TPunct ")"]; [TNum 0];
             [TPunct "("; TNum n; TPunct ")"]]) = Some m').
  by rewrite exec_memset_call.
Qed.

Lemma bzero_zero_fills_witness :
  ∃ m', (preprocess 17 (macros (tu_env (strings_h marking_native msvc_tu)))
           (call "bzero" [[TNum 100]; [TNum 3]]) ≫= exec sample_memory)
        = Some m'
        ∧ m' !! 102 = Some 0.
Proof.
  destruct (bzero_zero_fills marking_native msvc_tu) with
    (m := sample_memory) (buf := 100) (n := 3) (fuel := 17%nat)
    as (_ & m' & Hrun & Hzero).
  - apply marking_native_preserves. by repeat constructor.
  - reflexivity.
  - reflexivity.
  - intros x Hx. by split_members Hx.
  - lia.
  - intros i Hi.
    assert (i = 0 ∨ i = 1 ∨ i = 2) as [-> | [-> | ->]] by lia;
      vm_compute; eauto.
  - lia.
  - exists m'. split; [exact Hrun |]. apply (Hzero 2). lia.
Defined.

(** ** C3 *)

(** C3, counterexample: on 64-bit Windows the typedef the shim declares for
    ssize_t is long, which has 32 bits there while pointers have 64: it does
    not hold a pointer-sized difference. *)
Lemma ssize_t_narrow_on_win64 :
  win64 ∈ msvc_targets
  ∧ typedefs_of "ssize_t" (tu_env (unistd_h marking_native msvc_tu)) = [CLong]
  ∧ width win64 CLong = 32
  ∧ ¬ holds_pointer_difference win64 CLong.
Proof.
  split; [by repeat constructor |]. split; [reflexivity |].
  split; [reflexivity |]. intros [_ H]. simpl in H. lia.
Qed.

(** C3, amended: under the Microsoft runtime, when no macro ssize_t is
    defined, unistd.h declares ssize_t as long: a signed integer type that
    has at least 32 bits on every conforming target.  It holds a
    pointer-sized difference exactly on the targets whose pointers are no
    wider than long, which is so for 32-bit Windows. *)
Theorem ssize_t_is_long native st t :
  defined MSC_VER st = true → defined UNISTD_GUARD st = false →
  preserves native ["ssize_t"] → keeps_typedef native "ssize_t" →
  macro_of st "ssize_t" = None →
  typedefs_of "ssize_t" (tu_env (unistd_h native st))
    = typedefs_of "ssize_t" (tu_env st) ++ [CLong]
  ∧ is_signed CLong = true
  ∧ (conforming t → 32 ≤ width t CLong)
  ∧ (holds_pointer_difference t CLong ↔ pointer_bits t ≤ long_bits t)
  ∧ holds_pointer_difference win32 CLong.
Proof.
  intros Hm Hg Hp Hk Hs. split; [| split; [done | split; [| split]]].
  - rewrite unistd_h_msvc by done.
    rewrite typedefs_of_unistd_msvc by done.
    rewrite typedefs_of_define, defined_define.
    case_decide; [done |].
    apply defined_false in Hs. by rewrite Hs.
  - intros (_ & Hl & _). exact Hl.
  - unfold holds_pointer_difference. simpl.
    split; [by intros [_ H] | by intros H].
  - split; [done | simpl; lia].
Qed.

Lemma ssize_t_is_long_witness :
  typedefs_of "ssize_t" (tu_env (unistd_h marking_native msvc_tu)) = [CLong]
  ∧ 32 ≤ width win64 CLong.
Proof.
  destruct (ssize_t_is_long marking_native msvc_tu win64 eq_refl eq_refl)
    as (Htd & _ & Hw & _).
  - apply marking_native_preserves. by repeat constructor.
  - apply marking_native_keeps_typedef.
  - reflexivity.
  - split; [exact Htd |]. apply Hw. unfold conforming. simpl. lia.
Defined.

(** ** C4 *)

Section Surface.

Variable native : string → env → env.



Lemma unistd_alias_in_force st f g :
  defined MSC_VER st = true → defined UNISTD_GUARD st = false →
  preserves native unistd_aliases.*2 → undefined_in st unistd_aliases.*2 →
  (f, g) ∈ unistd_aliases →
  macro_of (unistd_h native st) f = Some (alias g)
  ∧ macro_of (unistd_h native st) g = None.
Proof.
  intros Hm Hg Hp Hu Hfg. split; [by apply unistd_h_alias_lookup |].
  assert (g ∈ unistd_aliases.*2) as Hgin.
  { apply list_elem_of_fmap. by exists (f, g). }
  rewrite unistd_h_other_lookup; try done.
  - by apply Hu.
  - unfold unistd_aliases in Hfg. unfold unistd_surface.
    split_members Hfg; intros Hin; split_members Hin.
  - unfold unistd_aliases in Hfg. split_members Hfg; done.
  - by apply (preserves_elem native _ _ Hp).
Qed.

Lemma strings_alias_in_force st f g :
  defined MSC_VER st = true → defined STRINGS_GUARD st = false →
  preserves native (MSC_VER :: strings_aliases.*1 ++ strings_aliases.*2) →
  undefined_in st (strings_aliases.*1 ++ strings_aliases.*2) →
  (f, g) ∈ strings_aliases →
  macro_of (strings_h native st) f = Some (alias g)
  ∧ macro_of (strings_h native st) g = None.
Proof.
  intros Hm Hg Hp Hu Hfg.
  assert (preserves native [MSC_VER]) as Hpm.
  { apply (preserves_elem native _ _ Hp). constructor. }
  assert (f ∈ strings_aliases.*1 ++ strings_aliases.*2) as Hfin.
  { unfold strings_aliases in *. simpl.
    split_members Hfg; by repeat constructor. }
  assert (g ∈ strings_aliases.*1 ++ strings_aliases.*2) as Hgin.
  { unfold strings_aliases in *. simpl.
    split_members Hfg; by repeat constructor. }
  split.
  - rewrite (strings_h_guarded_lookup native st f (alias g)); try done.
    + by rewrite (Hu f).
    + unfold strings_aliases in Hfg. unfold strings_guarded.
      split_members Hfg; by repeat constructor.
    + apply (preserves_elem native _ _ Hp). by constructor.
  - rewrite strings_h_other_lookup; try done.
    + by apply Hu.
    + unfold strings_aliases in Hfg. unfold strings_surface.
      split_members Hfg; intros Hin; split_members Hin.
    + unfold strings_aliases in Hfg. split_members Hfg; done.
    + apply (preserves_elem native _ _ Hp). by constructor.
Qed.

End Surface.




(** * Further properties of the two headers *)

(** ** Names left alone *)

Lemma strings_h_frame native st x :
  preserves native [x] → x ∉ STRINGS_GUARD :: strings_surface →
  macro_of (strings_h native st) x = macro_of st x.
Proof.
  intros Hp Hx. destruct (defined STRINGS_GUARD st) eqn:Hg.
  { by rewrite strings_h_again. }
  rewrite strings_h_first by done.
  assert (macro_of (include native "string.h"
            (define STRINGS_GUARD (ObjectLike []) st)) x = macro_of st x)
    as Hd.
  { rewrite macro_of_include_own, macro_of_define by done.
    case_decide as Heq; [| done]. exfalso. apply Hx. subst x. constructor. }
  unfold ifdef. destruct (defined MSC_VER _); [| done].
  rewrite macro_of_strings_msvc_other; [done | | done].
  intros Hin. apply Hx. by constructor.
Qed.

Lemma unistd_h_frame native st x :
  preserves native [x] → x ∉ UNISTD_GUARD :: unistd_surface →
  macro_of (unistd_h native st) x = macro_of st x.
Proof.
  intros Hp Hx. destruct (defined UNISTD_GUARD st) eqn:Hg.
  { by rewrite unistd_h_again. }
  rewrite unistd_h_first by done.
  assert (macro_of (define UNISTD_GUARD (ObjectLike []) st) x
          = macro_of st x) as Hd.
  { rewrite macro_of_define.
    case_decide as Heq; [| done]. exfalso. apply Hx. subst x. constructor. }
  unfold ifdef_else. destruct (defined MSC_VER _).
  - rewrite macro_of_unistd_msvc_other; [done | | done].
    intros Hin. apply Hx. by constructor.
  - by rewrite (macro_of_include_next native [x]) by (done || constructor).
Qed.

(** X1: whatever the platform and whether or not the header was included
    before, strings.h changes the binding of no macro name other than
    KREUZBERG_RUBY_STRINGS_H, strcasecmp, strncasecmp and bzero, and
    unistd.h of none other than KREUZBERG_RUBY_UNISTD_H and the fifteen
    names of its surface, as far as the system headers leave the name
    alone. *)
Theorem shim_touches_only_its_names native st x :
  preserves native [x] →
  (x ∉ STRINGS_GUARD :: strings_surface →
     macro_of (strings_h native st) x = macro_of st x)
  ∧ (x ∉ UNISTD_GUARD :: unistd_surface →
     macro_of (unistd_h native st) x = macro_of st x).
Proof.
  intros Hp. split; intros Hx.
  - by apply strings_h_frame.
  - by apply unistd_h_frame.
Qed.

Lemma shim_touches_only_its_names_witness :
  macro_of (unistd_h marking_native clashing_tu) "_MSC_VER"
    = Some (ObjectLike [TNum 1939])
  ∧ macro_of (strings_h marking_native clashing_tu) "access"
    = Some (ObjectLike [TId "rb_w32_access"]).
Proof.
  split.
  - destruct (shim_touches_only_its_names marking_native clashing_tu
                "_MSC_VER") as [_ Hu].
    + apply marking_native_preserves. by repeat constructor.
    + rewrite Hu; [reflexivity |].
      intros Hin. unfold unistd_surface in Hin. split_members Hin.
  - destruct (shim_touches_only_its_names marking_native clashing_tu
                "access") as [Hs _].
    + apply marking_native_preserves. by repeat constructor.
    + rewrite Hs; [reflexivity |].
      intros Hin. unfold strings_surface in Hin. split_members Hin.
Defined.

(** ** Headers pulled in *)

(** X2: the headers a first inclusion requests, in order.  strings.h asks
    for <string.h> and, where _MSC_VER is defined after it, for <ctype.h>;
    unistd.h under _MSC_VER asks for <direct.h>, <io.h>, <process.h> and
    <stdlib.h> and never for a system unistd.h, and without _MSC_VER for
    nothing but the next unistd.h of the search path. *)
Theorem first_inclusion_requests native st :
  (defined STRINGS_GUARD st = false →
     tu_included (strings_h native st)
     = tu_included st ++ Include "string.h"
         :: (if defined MSC_VER
                  (include native "string.h"
                     (define STRINGS_GUARD (ObjectLike []) st))
             then [Include "ctype.h"] else []))
  ∧ (defined UNISTD_GUARD st = false →
     tu_included (unistd_h native st)
     = tu_included st
         ++ (if defined MSC_VER st
             then [Include "direct.h"; Include "io.h";
                   Include "process.h"; Include "stdlib.h"]
             else [IncludeNext "unistd.h"])).
Proof.
  split; intros Hg.
  - rewrite strings_h_first by done. unfold ifdef.
    destruct (defined MSC_VER _).
    + rewrite tu_included_strings_msvc. simpl. by rewrite <- app_assoc.
    + reflexivity.
  - rewrite unistd_h_first by done. unfold ifdef_else.
    rewrite defined_define. case_decide as Heq; [done |].
    destruct (defined MSC_VER st).
    + by rewrite tu_included_unistd_msvc.
    + reflexivity.
Qed.

Lemma first_inclusion_requests_witness :
  tu_included (unistd_h marking_native msvc_tu)
  = [Include "direct.h"; Include "io.h"; Include "process.h";
     Include "stdlib.h"]
  ∧ tu_included (strings_h marking_native empty_tu) = [Include "string.h"].
Proof.
  destruct (first_inclusion_requests marking_native msvc_tu) as [_ Hu].
  destruct (first_inclusion_requests marking_native empty_tu) as [Hs _].
  split; [exact (Hu eq_refl) | exact (Hs eq_refl)].
Defined.

(** ** Diagnostics of unistd.h *)

Lemma tu_diags_define_exact x m st :
  tu_diags (define x m st) = tu_diags st ++ macro_clash st x m.
Proof. reflexivity. Qed.

Lemma macro_clash_ext s1 s2 x m :
  macro_of s1 x = macro_of s2 x → macro_clash s1 x m = macro_clash s2 x m.
Proof. unfold macro_clash. by intros ->. Qed.

Lemma tu_diags_ifndef_typedef_exact st :
  tu_diags (ifndef "ssize_t" (typedef CLong "ssize_t") st)
  = tu_diags st
    ++ (if defined "ssize_t" st then [] else typedef_clash st CLong "ssize_t").
Proof.
  unfold ifndef. destruct (defined "ssize_t" st); [by rewrite app_nil_r |].
  reflexivity.
Qed.

(** The state an alias is defined in binds its name as the state before the
    branch does. *)
Ltac at_alias native Hp1 :=
  repeat progress
    (rewrite ?macro_of_define, ?macro_of_ifndef_define,
       ?macro_of_ifndef_typedef; simpl);
  apply (macro_of_includes_unistd native); apply Hp1; simpl;
  by repeat constructor.

Lemma tu_diags_unistd_msvc_exact native st :
  preserves native ("ssize_t" :: unistd_aliases.*1) →
  keeps_typedef native "ssize_t" →
  tu_diags (unistd_msvc native st)
  = tu_diags st
    ++ (if defined "ssize_t" st then [] else typedef_clash st CLong "ssize_t")
    ++ (unistd_aliases ≫= λ p, macro_clash st p.1 (alias p.2)).
Proof.
  intros Hp Hk.
  assert (∀ x, x ∈ "ssize_t" :: unistd_aliases.*1 → preserves native [x])
    as Hp1 by (intros x Hx; by eapply preserves_elem).
  unfold unistd_msvc, seq. rewrite !tu_diags_define_exact.
  repeat match goal with
         | |- context [macro_clash (define ?a ?b ?c) ?x ?m] =>
             rewrite (macro_clash_ext (define a b c) st x m)
               by at_alias native Hp1
         | |- context [macro_clash (ifndef ?a ?b ?c) ?x ?m] =>
             rewrite (macro_clash_ext (ifndef a b c) st x m)
               by at_alias native Hp1
         end.
  rewrite !tu_diags_ifndef_define, tu_diags_ifndef_typedef_exact.
  rewrite !tu_diags_include.
  assert (defined "ssize_t"
            (include native "stdlib.h" (include native "process.h"
              (include native "io.h" (include native "direct.h" st))))
          = defined "ssize_t" st) as ->.
  { unfold defined. rewrite macro_of_includes_unistd; [done |].
    apply Hp1. constructor. }
  assert (typedef_clash
            (include native "stdlib.h" (include native "process.h"
              (include native "io.h" (include native "direct.h" st))))
            CLong "ssize_t"
          = typedef_clash st CLong "ssize_t") as ->.
  { unfold typedef_clash. by rewrite !typedefs_of_include. }
  unfold unistd_aliases. simpl. by rewrite <- !app_assoc, app_nil_r.
Qed.

(** X3: under the Microsoft runtime a first inclusion of unistd.h binds
    each of the ten aliases to its runtime name whatever the name was bound
    to before, and raises exactly these diagnostics, in this order: a
    typedef redefinition when ssize_t is not a macro but is already declared
    with a type other than long, then a macro redefinition for each alias
    name, in the order of the header, that was defined with another
    replacement.  The #ifndef before the typedef tests the macro only. *)
Theorem unistd_h_diagnostics native st :
  defined MSC_VER st = true → defined UNISTD_GUARD st = false →
  preserves native ("ssize_t" :: unistd_aliases.*1) →
  keeps_typedef native "ssize_t" →
  tu_diags (unistd_h native st)
  = tu_diags st
    ++ (if defined "ssize_t" st then [] else typedef_clash st CLong "ssize_t")
    ++ (unistd_aliases ≫= λ p, macro_clash st p.1 (alias p.2))
  ∧ ∀ f g, (f, g) ∈ unistd_aliases →
      macro_of (unistd_h native st) f = Some (alias g).
Proof.
  intros Hm Hg Hp Hk. split.
  - rewrite unistd_h_msvc by done.
    rewrite tu_diags_unistd_msvc_exact by done.
    rewrite tu_diags_define_quiet by (left; by apply defined_false).
    rewrite defined_define. case_decide as Heq; [done |].
    do 2 f_equal. unfold unistd_aliases. simpl.
    by rewrite !(macro_clash_ext (define UNISTD_GUARD (ObjectLike []) st) st)
      by (rewrite macro_of_define; reflexivity).
  - intros f g Hfg. by apply unistd_h_alias_lookup.
Qed.

Lemma unistd_h_diagnostics_witness :
  tu_diags (unistd_h marking_native typedef_tu)
    = [TypedefRedefinition "ssize_t"]
  ∧ tu_diags (unistd_h marking_native clashing_tu)
    = [MacroRedefinition "access"].
Proof.
  split.
  - destruct (unistd_h_diagnostics marking_native typedef_tu eq_refl eq_refl)
      as [Hd _].
    + apply marking_native_preserves. by repeat constructor.
    + apply marking_native_keeps_typedef.
    + rewrite Hd. reflexivity.
  - destruct (unistd_h_diagnostics marking_native clashing_tu eq_refl eq_refl)
      as [Hd _].
    + apply marking_native_preserves. by repeat constructor.
    + apply marking_native_keeps_typedef.
    + rewrite Hd. reflexivity.
Defined.

(** ** Macros are never removed *)

Lemma monotone_define x m : monotone (define x m).
Proof.
  intros st y Hy. rewrite defined_define. by case_decide.
Qed.

Lemma monotone_typedef ty x : monotone (typedef ty x).
Proof. by intros st y Hy. Qed.

Lemma monotone_ifndef x d : monotone d → monotone (ifndef x d).
Proof.
  intros Hd st y Hy. unfold ifndef. destruct (defined x st); [done |].
  by apply Hd.
Qed.

Lemma monotone_ifdef x d : monotone d → monotone (ifdef x d).
Proof.
  intros Hd st y Hy. unfold ifdef. destruct (defined x st); [| done].
  by apply Hd.
Qed.

Lemma monotone_ifdef_else x d1 d2 :
  monotone d1 → monotone d2 → monotone (ifdef_else x d1 d2).
Proof.
  intros H1 H2 st y Hy. unfold ifdef_else.
  destruct (defined x st); [by apply H1 | by apply H2].
Qed.

Lemma monotone_seq d1 d2 : monotone d1 → monotone d2 → monotone (d1 >>> d2).
Proof. intros H1 H2 st y Hy. unfold seq. by apply H2, H1. Qed.

Lemma monotone_include native h :
  never_undefines native → monotone (include native h).
Proof.
  intros Hn st y Hy. apply defined_true. apply defined_true in Hy.
  by apply Hn.
Qed.

Lemma monotone_include_next native h :
  never_undefines native → monotone (include_next native h).
Proof.
  intros Hn st y Hy. apply defined_true. apply defined_true in Hy.
  by apply Hn.
Qed.

Lemma marking_native_never_undefines : never_undefines marking_native.
Proof.
  intros h e x [m Hm]. unfold marking_native. simpl.
  rewrite lookup_insert. case_decide; eauto.
Qed.

(** X5: neither header contains an #undef: where the system headers remove
    no macro either, every macro that is defined before an inclusion of
    strings.h or unistd.h is defined after it, on every platform and for
    every state of the guards. *)
Theorem headers_never_undefine native :
  never_undefines native →
  monotone (strings_h native) ∧ monotone (unistd_h native).
Proof.
  intros Hn. split.
  - unfold strings_h, strings_msvc.
    repeat first
      [ apply monotone_ifndef | apply monotone_ifdef | apply monotone_seq
      | apply monotone_define | by apply monotone_include ].
  - unfold unistd_h, unistd_msvc.
    repeat first
      [ apply monotone_ifndef | apply monotone_ifdef_else | apply monotone_seq
      | apply monotone_define | apply monotone_typedef
      | by apply monotone_include | by apply monotone_include_next ].
Qed.

Lemma headers_never_undefine_witness :
  defined "access" (unistd_h marking_native clashing_tu) = true
  ∧ defined "access" (strings_h marking_native clashing_tu) = true.
Proof.
  destruct (headers_never_undefine marking_native
              marking_native_never_undefines) as [Hs Hu].
  split; [apply Hu | apply Hs]; reflexivity.
Defined.

(** ** The two headers together *)

Lemma unistd_msvc_local native s1 s2 x :
  preserves native [x] → macro_of s1 x = macro_of s2 x →
  macro_of (unistd_msvc native s1) x = macro_of (unistd_msvc native s2) x.
Proof.
  intros Hp Hx. destruct (decide (x ∈ unistd_surface)) as [Hin | Hout].
  - unfold unistd_surface in Hin. split_members Hin.
    + by rewrite !macro_of_ssize_t_unistd_msvc.
    + rewrite !(macro_of_unistd_msvc_guarded native _ "F_OK" F_OK), Hx;
        first [done | unfold unistd_guarded; by repeat constructor].
    + rewrite !(macro_of_unistd_msvc_guarded native _ "X_OK" X_OK), Hx;
        first [done | unfold unistd_guarded; by repeat constructor].
    + rewrite !(macro_of_unistd_msvc_guarded native _ "W_OK" W_OK), Hx;
        first [done | unfold unistd_guarded; by repeat constructor].
    + rewrite !(macro_of_unistd_msvc_guarded native _ "R_OK" R_OK), Hx;
        first [done | unfold unistd_guarded; by repeat constructor].
    + by rewrite !(macro_of_unistd_msvc_alias native _ _ "_access")
        by (unfold unistd_aliases; by repeat constructor).
    + by rewrite !(macro_of_unistd_msvc_alias native _ _ "_dup2")
        by (unfold unistd_aliases; by repeat constructor).
    + by rewrite !(macro_of_unistd_msvc_alias native _ _ "_fileno")
        by (unfold unistd_aliases; by repeat constructor).
    + by rewrite !(macro_of_unistd_msvc_alias native _ _ "_getpid")
        by (unfold unistd_aliases; by repeat constructor).
    + by rewrite !(macro_of_unistd_msvc_alias native _ _ "_isatty")
        by (unfold unistd_aliases; by repeat constructor).
    + by rewrite !(macro_of_unistd_msvc_alias native _ _ "_lseek")
        by (unfold unistd_aliases; by repeat constructor).
    + by rewrite !(macro_of_unistd_msvc_alias native _ _ "_read")
        by (unfold unistd_aliases; by repeat constructor).
    + by rewrite !(macro_of_unistd_msvc_alias native _ _ "_write")
        by (unfold unistd_aliases; by repeat constructor).
    + by rewrite !(macro_of_unistd_msvc_alias native _ _ "_close")
        by (unfold unistd_aliases; by repeat constructor).
    + by rewrite !(macro_of_unistd_msvc_alias native _ _ "_unlink")
        by (unfold unistd_aliases; by repeat constructor).
  - by rewrite !macro_of_unistd_msvc_other.
Qed.

Lemma strings_msvc_local native s1 s2 x :
  preserves native [x] → macro_of s1 x = macro_of s2 x →
  macro_of (strings_msvc native s1) x = macro_of (strings_msvc native s2) x.
Proof.
  intros Hp Hx. destruct (decide (x ∈ strings_surface)) as [Hin | Hout].
  - unfold strings_surface in Hin. split_members Hin.
    + rewrite !(macro_of_strings_msvc_guarded native _ "strcasecmp"
                  (alias "_stricmp")), Hx;
        first [done | unfold strings_guarded; by repeat constructor].
    + rewrite !(macro_of_strings_msvc_guarded native _ "strncasecmp"
                  (alias "_strnicmp")), Hx;
        first [done | unfold strings_guarded; by repeat constructor].
    + rewrite !(macro_of_strings_msvc_guarded native _ "bzero" bzero_macro),
        Hx; first [done | unfold strings_guarded; by repeat constructor].
  - by rewrite !macro_of_strings_msvc_other.
Qed.

Lemma defined_ext s1 s2 x :
  macro_of s1 x = macro_of s2 x → defined x s1 = defined x s2.
Proof. unfold defined. by intros ->. Qed.

(** What a header does to a name depends on the bindings of its guard, of
    [_MSC_VER] and of that name only. *)
Lemma unistd_h_local native s1 s2 x :
  preserves native [x] →
  macro_of s1 UNISTD_GUARD = macro_of s2 UNISTD_GUARD →
  macro_of s1 MSC_VER = macro_of s2 MSC_VER →
  macro_of s1 x = macro_of s2 x →
  macro_of (unistd_h native s1) x = macro_of (unistd_h native s2) x.
Proof.
  intros Hp Hg Hm Hx.
  pose proof (defined_ext _ _ _ Hg) as Hdg.
  pose proof (defined_ext _ _ _ Hm) as Hdm.
  destruct (defined UNISTD_GUARD s2) eqn:Hg2.
  { by rewrite !unistd_h_again. }
  rewrite !unistd_h_first by done. unfold ifdef_else.
  rewrite !defined_define, Hdm.
  assert (macro_of (define UNISTD_GUARD (ObjectLike []) s1) x
          = macro_of (define UNISTD_GUARD (ObjectLike []) s2) x) as Hx'.
  { rewrite !macro_of_define. by case_decide. }
  case_decide; [done |]. destruct (defined MSC_VER s2).
  - by apply unistd_msvc_local.
  - by rewrite !(macro_of_include_next native [x]) by (done || constructor).
Qed.

Lemma strings_h_local native s1 s2 x :
  preserves native [MSC_VER] → preserves native [x] →
  macro_of s1 STRINGS_GUARD = macro_of s2 STRINGS_GUARD →
  macro_of s1 MSC_VER = macro_of s2 MSC_VER →
  macro_of s1 x = macro_of s2 x →
  macro_of (strings_h native s1) x = macro_of (strings_h native s2) x.
Proof.
  intros Hpm Hp Hg Hm Hx.
  pose proof (defined_ext _ _ _ Hg) as Hdg.
  pose proof (defined_ext _ _ _ Hm) as Hdm.
  destruct (defined STRINGS_GUARD s2) eqn:Hg2.
  { by rewrite !strings_h_again. }
  rewrite !strings_h_first by done. unfold ifdef.
  rewrite !(defined_include native [MSC_VER]) by (done || constructor).
  rewrite !defined_define, Hdm.
  assert (macro_of (include native "string.h"
            (define STRINGS_GUARD (ObjectLike []) s1)) x
          = macro_of (include native "string.h"
              (define STRINGS_GUARD (ObjectLike []) s2)) x) as Hx'.
  { rewrite !macro_of_include_own, !macro_of_define by done. by case_decide. }
  case_decide; [done |]. destruct (defined MSC_VER s2); [| done].
  by apply strings_msvc_local.
Qed.

(** X4: the two headers can be included in either order: for every macro
    name that the system headers leave alone (as they do the two guards
    and _MSC_VER), the binding after strings.h then unistd.h is the binding
    after unistd.h then strings.h. *)
Theorem inclusion_order_irrelevant native st x :
  preserves native [MSC_VER; STRINGS_GUARD; UNISTD_GUARD; x] →
  macro_of (unistd_h native (strings_h native st)) x
  = macro_of (strings_h native (unistd_h native st)) x.
Proof.
  intros Hp.
  assert (preserves native [MSC_VER]) as Hpm
    by (apply (preserves_elem native _ _ Hp); by repeat constructor).
  assert (preserves native [STRINGS_GUARD]) as Hps
    by (apply (preserves_elem native _ _ Hp); by repeat constructor).
  assert (preserves native [UNISTD_GUARD]) as Hpu
    by (apply (preserves_elem native _ _ Hp); by repeat constructor).
  assert (preserves native [x]) as Hpx
    by (apply (preserves_elem native _ _ Hp); by repeat constructor).
  assert (∀ y, y ∈ [MSC_VER; UNISTD_GUARD] →
            y ∉ STRINGS_GUARD :: strings_surface) as Hdu.
  { intros y Hy Hin. unfold strings_surface in Hin.
    split_members Hy; split_members Hin. }
  assert (∀ y, y ∈ [MSC_VER; STRINGS_GUARD] →
            y ∉ UNISTD_GUARD :: unistd_surface) as Hds.
  { intros y Hy Hin. unfold unistd_surface in Hin.
    split_members Hy; split_members Hin. }
  destruct (decide (x ∈ STRINGS_GUARD :: strings_surface)) as [Hs | Hs].
  - assert (x ∉ UNISTD_GUARD :: unistd_surface) as Hu.
    { intros Hin. unfold strings_surface in Hs. unfold unistd_surface in Hin.
      split_members Hs; split_members Hin. }
    rewrite unistd_h_frame by done.
    apply strings_h_local; try done; symmetry; apply unistd_h_frame;
      try done; apply Hds; by repeat constructor.
  - rewrite (strings_h_frame native (unistd_h native st)) by done.
    apply unistd_h_local; try done; apply strings_h_frame;
      try done; apply Hdu; by repeat constructor.
Qed.

Lemma inclusion_order_irrelevant_witness :
  macro_of (unistd_h marking_native (strings_h marking_native clashing_tu))
    "bzero"
  = macro_of (strings_h marking_native (unistd_h marking_native clashing_tu))
      "bzero".
Proof.
  apply inclusion_order_irrelevant.
  apply marking_native_preserves. by repeat constructor.
Defined.

(** ** Occurrences of the names outside calls *)

Lemma expand_inert_prefix E pre rest fuel :
  Forall (inert E) pre →
  expand (length pre + fuel) E (pre ++ rest) = (pre ++.) <$> expand fuel E rest.
Proof.
  induction 1 as [| t pre Ht _ IH].
  - simpl. by destruct (expand fuel E rest).
  - change (expand (S (length pre + fuel)) E (t :: (pre ++ rest))
            = ((t :: pre) ++.) <$> expand fuel E rest).
    destruct t as [[x | | |] hs].
    + rewrite expand_undefined by (by apply Ht).
      rewrite IH. by destruct (expand fuel E rest).
    + rewrite expand_other by done.
      rewrite IH. by destruct (expand fuel E rest).
    + rewrite expand_other by done.
      rewrite IH. by destruct (expand fuel E rest).
    + rewrite expand_other by done.
      rewrite IH. by destruct (expand fuel E rest).
Qed.

Lemma expand_function_name_alone fuel E x hs params body rest :
  E !! x = Some (FunctionLike params body) → starts_call rest = false →
  expand (S fuel) E ((TId x, hs) :: rest)
  = cons (TId x, hs) <$> expand fuel E rest.
Proof. intros H Hs. simpl. rewrite H, Hs. by case_decide. Qed.

Lemma unpainted_app l1 l2 : unpainted (l1 ++ l2) = unpainted l1 ++ unpainted l2.
Proof. apply map_app. Qed.

Lemma length_unpainted l : length (unpainted l) = length l.
Proof. apply length_map. Qed.

Lemma preprocess_alias_anywhere E f g pre post fuel :
  E !! f = Some (alias g) → E !! g = None →
  Forall (λ t, ∀ x, t = TId x → E !! x = None) pre →
  Forall (λ t, ∀ x, t = TId x → E !! x = None) post →
  (length pre + length post + 3 ≤ fuel)%nat →
  preprocess fuel E (pre ++ TId f :: post) = Some (pre ++ TId g :: post).
Proof.
  intros Hf Hg Hpre Hpost Hfuel. unfold preprocess.
  replace fuel
    with (length (unpainted pre)
          + S (S (fuel - length pre - 2)))%nat
    by (rewrite length_unpainted; lia).
  rewrite unpainted_app.
  rewrite expand_inert_prefix by (by apply inert_unpainted).
  change (unpainted (TId f :: post)) with ((TId f, ∅) :: unpainted post).
  rewrite (expand_object _ _ _ _ [TId g]) by (done || set_solver).
  change (paint ?hs (unpainted [TId g]) ++ ?r)
    with ((TId g, (∅ : gset string) ∪ hs) :: r).
  rewrite expand_undefined by done.
  rewrite expand_inert;
    [| by apply inert_unpainted | rewrite length_unpainted; lia].
  simpl. rewrite map_app. simpl. by rewrite !map_fst_unpainted.
Qed.

Lemma preprocess_function_name_alone E x params body pre post fuel :
  E !! x = Some (FunctionLike params body) →
  starts_call (unpainted post) = false →
  Forall (λ t, ∀ x, t = TId x → E !! x = None) pre →
  Forall (λ t, ∀ x, t = TId x → E !! x = None) post →
  (length pre + length post + 3 ≤ fuel)%nat →
  preprocess fuel E (pre ++ TId x :: post) = Some (pre ++ TId x :: post).
Proof.
  intros Hx Hs Hpre Hpost Hfuel. unfold preprocess.
  replace fuel
    with (length (unpainted pre) + S (fuel - length pre - 1))%nat
    by (rewrite length_unpainted; lia).
  rewrite unpainted_app.
  rewrite expand_inert_prefix by (by apply inert_unpainted).
  change (unpainted (TId x :: post)) with ((TId x, ∅) :: unpainted post).
  rewrite (expand_function_name_alone _ _ _ _ params body) by done.
  rewrite expand_inert;
    [| by apply inert_unpainted | rewrite length_unpainted; lia].
  simpl. rewrite map_app. simpl. by rewrite !map_fst_unpainted.
Qed.

(** X6: the ten aliases of unistd.h are object-like macros: under the
    Microsoft runtime, with the runtime names not macros themselves, every
    occurrence of an alias name in the text that follows the inclusion is
    replaced by the runtime name, whether or not it is a call, for example
    the name of a member in [s . close] or of a variable. *)
Theorem unistd_alias_replaced_anywhere native st :
  defined MSC_VER st = true → defined UNISTD_GUARD st = false →
  preserves native unistd_aliases.*2 → undefined_in st unistd_aliases.*2 →
  ∀ f g pre post fuel,
    (f, g) ∈ unistd_aliases →
    Forall (λ t, ∀ x, t = TId x → macro_of (unistd_h native st) x = None) pre →
    Forall (λ t, ∀ x, t = TId x → macro_of (unistd_h native st) x = None) post →
    (length pre + length post + 3 ≤ fuel)%nat →
    preprocess fuel (macros (tu_env (unistd_h native st)))
      (pre ++ TId f :: post)
    = Some (pre ++ TId g :: post).
Proof.
  intros Hm Hg Hp Hu f g pre post fuel Hfg Hpre Hpost Hfuel.
  destruct (unistd_alias_in_force native st f g) as [Hf Hgn]; try done.
  by apply preprocess_alias_anywhere.
Qed.

Lemma unistd_alias_replaced_anywhere_witness :
  preprocess 6 (macros (tu_env (unistd_h marking_native msvc_tu)))
    [TId "s"; TPunct "."; TId "close"; TPunct ";"]
  = Some [TId "s"; TPunct "."; TId "_close"; TPunct ";"].
Proof.
  apply (unistd_alias_replaced_anywhere marking_native msvc_tu eq_refl eq_refl)
    with (pre := [TId "s"; TPunct "."]) (post := [TPunct ";"]).
  - apply marking_native_preserves. by repeat constructor.
  - intros x Hx. simpl in Hx. by split_members Hx.
  - unfold unistd_aliases. by repeat constructor.
  - repeat constructor; by intros x [= <-].
  - repeat constructor; by intros x [=].
  - simpl. lia.
Defined.

(** X7: of the three names of strings.h, strcasecmp and strncasecmp are
    object-like macros and are replaced wherever they occur, while bzero is
    a function-like macro: an occurrence of bzero that is not followed by
    an opening parenthesis, such as in [& bzero], is left as it is and
    reaches the compiler under the name bzero. *)
Theorem strings_names_outside_calls native st :
  defined MSC_VER st = true → defined STRINGS_GUARD st = false →
  preserves native [MSC_VER; "strcasecmp"; "strncasecmp"; "bzero";
                    "_stricmp"; "_strnicmp"] →
  undefined_in st ["strcasecmp"; "strncasecmp"; "bzero";
                   "_stricmp"; "_strnicmp"] →
  ∀ pre post fuel,
    Forall (λ t, ∀ x, t = TId x → macro_of (strings_h native st) x = None) pre →
    Forall (λ t, ∀ x, t = TId x → macro_of (strings_h native st) x = None) post →
    (length pre + length post + 3 ≤ fuel)%nat →
    (∀ f g, (f, g) ∈ strings_aliases →
       preprocess fuel (macros (tu_env (strings_h native st)))
         (pre ++ TId f :: post)
       = Some (pre ++ TId g :: post))
    ∧ (starts_call (unpainted post) = false →
       preprocess fuel (macros (tu_env (strings_h native st)))
         (pre ++ TId "bzero" :: post)
       = Some (pre ++ TId "bzero" :: post)).
Proof.
  intros Hm Hg Hp Hu pre post fuel Hpre Hpost Hfuel.
  assert (preserves native [MSC_VER]) as Hpm
    by (apply (preserves_elem native _ _ Hp); constructor).
  split.
  - intros f g Hfg.
    destruct (strings_alias_in_force native st f g) as [Hf Hgn]; try done.
    + intros h e x Hx. apply Hp. simpl in Hx.
      split_members Hx; by repeat constructor.
    + intros x Hx. apply Hu. simpl in Hx.
      split_members Hx; by repeat constructor.
    + by apply preprocess_alias_anywhere.
  - intros Hs.
    apply (preprocess_function_name_alone _ _ ["ptr"; "size"]
             [TId "memset"; TPunct "("; TPunct "("; TId "ptr"; TPunct ")";
              TPunct ","; TNum 0; TPunct ",";
              TPunct "("; TId "size"; TPunct ")"; TPunct ")"]); try done.
    change (macro_of (strings_h native st) "bzero" = Some bzero_macro).
    rewrite (strings_h_guarded_lookup native st "bzero" bzero_macro);
      try done.
    + rewrite (Hu "bzero"); [done | by repeat constructor].
    + unfold strings_guarded. by repeat constructor.
    + apply (preserves_elem native _ _ Hp). by repeat constructor.
Qed.

Lemma strings_names_outside_calls_witness :
  preprocess 5 (macros (tu_env (strings_h marking_native msvc_tu)))
    [TPunct "&"; TId "bzero"; TPunct ";"]
  = Some [TPunct "&"; TId "bzero"; TPunct ";"]
  ∧ preprocess 5 (macros (tu_env (strings_h marking_native msvc_tu)))
      [TPunct "&"; TId "strcasecmp"; TPunct ";"]
    = Some [TPunct "&"; TId "_stricmp"; TPunct ";"].
Proof.
  destruct (strings_names_outside_calls marking_native msvc_tu eq_refl eq_refl)
    with (pre := [TPunct "&"]) (post := [TPunct ";"]) (fuel := 5%nat)
    as [Ha Hb].
  - apply marking_native_preserves. by repeat constructor.
  - intros x Hx. by split_members Hx.
  - repeat constructor; by intros x [=].
  - repeat constructor; by intros x [=].
  - simpl. lia.
  - split; [apply Hb; reflexivity |].
    apply Ha. unfold strings_aliases. by repeat constructor.
Defined.

(** ** Arguments of bzero *)

Lemma flat_not_punct E t p :
  flat E t → p = "(" ∨ p = ")" ∨ p = "," → is_punct p t = false.
Proof.
  destruct t as [| | | q]; try done. simpl. intros (H1 & H2 & H3) Hp.
  apply bool_decide_eq_false. intros ->. by destruct Hp as [Hp | [Hp | Hp]].
Qed.

Lemma collect_args_flat E ts :
  Forall (flat E) ts →
  ∀ depth cur acc rest,
    collect_args depth cur acc (unpainted ts ++ rest)
    = collect_args depth (cur ++ unpainted ts) acc rest.
Proof.
  induction 1 as [| t ts Ht _ IH]; intros depth cur acc rest.
  - simpl. by rewrite app_nil_r.
  - change (unpainted (t :: ts) ++ rest)
      with ((t, (∅ : gset string)) :: (unpainted ts ++ rest)).
    cbn [collect_args fst].
    rewrite !(flat_not_punct E t) by (done || auto).
    rewrite IH. f_equal. by rewrite <- app_assoc.
Qed.

Lemma collect_args_two E a1 a2 :
  Forall (flat E) a1 → Forall (flat E) a2 →
  collect_args O [] []
    (unpainted a1 ++ (TPunct ",", ∅) :: unpainted a2 ++ [(TPunct ")", ∅)])
  = Some ([unpainted a1; unpainted a2], ∅, []).
Proof.
  intros H1 H2. rewrite (collect_args_flat E) by done.
  cbn [collect_args fst is_punct]. simpl bool_decide. cbn iota.
  rewrite (collect_args_flat E) by done. reflexivity.
Qed.

Lemma flat_inert E ts :
  Forall (flat E) ts → Forall (inert E) (unpainted ts).
Proof.
  intros H. apply inert_unpainted. eapply Forall_impl; [exact H |].
  intros t Ht x ->. exact Ht.
Qed.

Lemma inert_paint E hs l : Forall (inert E) l → Forall (inert E) (paint hs l).
Proof. intros H. unfold paint. apply Forall_map. by eapply Forall_impl. Qed.

Lemma map_fst_paint hs l : map fst (paint hs l) = map fst l.
Proof. unfold paint. rewrite map_map. by apply map_ext. Qed.

Lemma preprocess_bzero_flat E a1 a2 fuel :
  E !! "bzero" = Some bzero_macro → E !! "memset" = None →
  Forall (flat E) a1 → Forall (flat E) a2 →
  (length a1 + length a2 + 17 ≤ fuel)%nat →
  preprocess fuel E (call "bzero" [a1; a2])
  = Some (call "memset"
            [TPunct "(" :: a1 ++ [TPunct ")"]; [TNum 0];
             TPunct "(" :: a2 ++ [TPunct ")"]]).
Proof.
  intros Hb Hm H1 H2 Hfuel.
  destruct fuel as [| F]; [lia |]. unfold preprocess.
  assert (unpainted (call "bzero" [a1; a2])
          = (TId "bzero", ∅) :: (TPunct "(", ∅)
              :: (unpainted a1 ++ (TPunct ",", ∅)
                    :: unpainted a2 ++ [(TPunct ")", ∅)])) as ->.
  { unfold call, unpainted. simpl. rewrite !map_app. simpl.
    by rewrite <- app_assoc. }
  erewrite expand_function;
    [ | set_solver | exact Hb | reflexivity
      | simpl tail; by apply (collect_args_two E)
      | reflexivity
      | apply expand_args_two;
          first [reflexivity
                | apply expand_inert;
                    first [by apply flat_inert
                          | rewrite length_unpainted; lia]] ].
  assert (subst_params [("ptr", unpainted a1); ("size", unpainted a2)]
            [TId "memset"; TPunct "("; TPunct "("; TId "ptr"; TPunct ")";
             TPunct ","; TNum 0; TPunct ",";
             TPunct "("; TId "size"; TPunct ")"; TPunct ")"]
          = [(TId "memset", ∅); (TPunct "(", ∅); (TPunct "(", ∅)]
            ++ unpainted a1
            ++ [(TPunct ")", ∅); (TPunct ",", ∅); (TNum 0, ∅);
                (TPunct ",", ∅); (TPunct "(", ∅)]
            ++ unpainted a2 ++ [(TPunct ")", ∅); (TPunct ")", ∅)]) as ->.
  { unfold subst_params. simpl. by rewrite ?app_nil_r. }
  rewrite expand_inert.
  - simpl. rewrite app_nil_r, map_fst_paint, !map_app, !map_fst_unpainted.
    unfold call. simpl. rewrite ?map_app, ?map_fst_unpainted. simpl.
    repeat progress (rewrite <- ?app_assoc; simpl). reflexivity.
  - rewrite app_nil_r. apply inert_paint.
    repeat (apply Forall_app; split);
      first [by apply flat_inert
            | repeat (constructor; [by intros x [= <-] || by intros x [=] |]);
              constructor].
  - rewrite app_nil_r. unfold paint.
    rewrite length_map, !length_app, !length_unpainted. simpl. lia.
Qed.

(** X8: the parameters of bzero are parenthesised in its replacement and
    used once each: under the Microsoft runtime [bzero(a1, a2)], for
    arguments of several tokens such as [buf + 4] and [n * 2] (free of
    commas, parentheses and macro names), becomes
    [memset((a1), 0, (a2))] with each argument copied once, unchanged and
    between its own parentheses. *)
Theorem bzero_parenthesises_arguments native st :
  preserves native [MSC_VER; "bzero"; "memset"] →
  defined MSC_VER st = true → defined STRINGS_GUARD st = false →
  undefined_in st ["bzero"; "memset"] →
  ∀ a1 a2 fuel,
    Forall (flat (macros (tu_env (strings_h native st)))) a1 →
    Forall (flat (macros (tu_env (strings_h native st)))) a2 →
    (length a1 + length a2 + 17 ≤ fuel)%nat →
    preprocess fuel (macros (tu_env (strings_h native st)))
      (call "bzero" [a1; a2])
    = Some (call "memset"
              [TPunct "(" :: a1 ++ [TPunct ")"]; [TNum 0];
               TPunct "(" :: a2 ++ [TPunct ")"]]).
Proof.
  intros Hp Hm Hg Hu a1 a2 fuel H1 H2 Hfuel.
  assert (preserves native [MSC_VER]) as Hpm
    by (apply (preserves_elem native _ _ Hp); constructor).
  apply preprocess_bzero_flat; try done.
  - change (macro_of (strings_h native st) "bzero" = Some bzero_macro).
    rewrite (strings_h_guarded_lookup native st "bzero" bzero_macro);
      try done.
    + rewrite (Hu "bzero"); [done | by repeat constructor].
    + unfold strings_guarded. by repeat constructor.
    + apply (preserves_elem native _ _ Hp). by repeat constructor.
  - change (macro_of (strings_h native st) "memset" = None).
    rewrite strings_h_other_lookup; try done.
    + apply Hu. by repeat constructor.
    + intros Hin. unfold strings_surface in Hin. split_members Hin.
    + apply (preserves_elem native _ _ Hp). by repeat constructor.
Qed.

Lemma bzero_parenthesises_arguments_witness :
  preprocess 23 (macros (tu_env (strings_h marking_native msvc_tu)))
    (call "bzero" [[TId "buf"; TPunct "+"; TNum 4];
                   [TId "n"; TPunct "*"; TNum 2]])
  = Some (call "memset"
            [[TPunct "("; TId "buf"; TPunct "+"; TNum 4; TPunct ")"];
             [TNum 0];
             [TPunct "("; TId "n"; TPunct "*"; TNum 2; TPunct ")"]]).
Proof.
  apply (bzero_parenthesises_arguments marking_native msvc_tu).
  - apply marking_native_preserves. by repeat constructor.
  - reflexivity.
  - reflexivity.
  - intros x Hx. by split_members Hx.
  - by repeat constructor.
  - by repeat constructor.
  - simpl. lia.
Defined.

(** ** What bzero writes *)

Lemma fill_unallocated n : ∀ s b (m : gmap Z Z) i,
  0 ≤ i < Z.of_nat n → m !! (s + i) = None → fill n s b m = None.
Proof.
  induction n as [| n IH]; intros s b m i Hi Hnone; [lia |].
  simpl fill. destruct (m !! s) as [v |] eqn:Hs; [| done].
  assert (i ≠ 0) as Hne.
  { intros ->. rewrite Z.add_0_r in Hnone. congruence. }
  apply (IH (s + 1) b _ (i - 1)); [lia |].
  rewrite lookup_insert_ne by lia.
  by replace (s + 1 + (i - 1)) with (s + i) by lia.
Qed.

(** X9: under the Microsoft runtime [bzero(buf, n)] writes the [n] bytes
    from [buf] and nothing else: every byte outside [buf[0..n)] keeps its
    value, with [n = 0] the memory is unchanged, and where one of the [n]
    bytes is not allocated the call has no defined result, as for the
    memset it stands for. *)
Theorem bzero_writes_only_the_range native st :
  preserves native [MSC_VER; "bzero"; "memset"] →
  defined MSC_VER st = true → defined STRINGS_GUARD st = false →
  undefined_in st ["bzero"; "memset"] →
  ∀ (m : gmap Z Z) buf n fuel,
    0 ≤ n → (17 ≤ fuel)%nat →
    ((∀ i, 0 ≤ i < n → is_Some (m !! (buf + i))) →
     ∃ m', (preprocess fuel (macros (tu_env (strings_h native st)))
              (call "bzero" [[TNum buf]; [TNum n]]) ≫= exec m) = Some m'
           ∧ (∀ a, a < buf ∨ buf + n ≤ a → m' !! a = m !! a)
           ∧ (n = 0 → m' = m))
    ∧ ((∃ i, 0 ≤ i < n ∧ m !! (buf + i) = None) →
       (preprocess fuel (macros (tu_env (strings_h native st)))
          (call "bzero" [[TNum buf]; [TNum n]]) ≫= exec m) = None).
Proof.
  intros Hp Hm Hg Hu m buf n fuel Hn Hfuel.
  assert (preserves native [MSC_VER]) as Hpm
    by (apply (preserves_elem native _ _ Hp); constructor).
  assert (preprocess fuel (macros (tu_env (strings_h native st)))
            (call "bzero" [[TNum buf]; [TNum n]])
          = Some (call "memset"
                    [[TPunct "("; TNum buf; TPunct ")"]; [TNum 0];
                     [TPunct "("; TNum n; TPunct ")"]])) as ->.
  { apply (preprocess_bzero_call _ (TNum buf) (TNum n)); try done.
    - change (macro_of (strings_h native st) "bzero" = Some bzero_macro).
      rewrite (strings_h_guarded_lookup native st "bzero" bzero_macro);
        try done.
      + rewrite (Hu "bzero"); [done | by repeat constructor].
      + unfold strings_guarded. by repeat constructor.
      + apply (preserves_elem native _ _ Hp). by repeat constructor.
    - change (macro_of (strings_h native st) "memset" = None).
      rewrite strings_h_other_lookup; try done.
      + apply Hu. by repeat constructor.
      + intros Hin. unfold strings_surface in Hin. split_members Hin.
      + apply (preserves_elem native _ _ Hp). by repeat constructor. }
  change (Some ?ts ≫= exec m) with (exec m ts).
  rewrite exec_memset_call by done. unfold memset. split.
  - intros Halloc.
    destruct (fill_spec (N.to_nat (Z.to_N n)) buf (0 mod 256) m)
      as (m' & Hfill & _ & Hout).
    { intros i Hi. apply Halloc. lia. }
    exists m'. split; [done |]. split.
    + intros a Ha. apply Hout. lia.
    + intros ->. apply map_eq. intros a. apply Hout. simpl. lia.
  - intros (i & Hi & Hnone).
    apply (fill_unallocated _ _ _ _ i); [lia | done].
Qed.

Lemma bzero_writes_only_the_range_witness :
  ∃ m', (preprocess 17 (macros (tu_env (strings_h marking_native msvc_tu)))
           (call "bzero" [[TNum 100]; [TNum 3]]) ≫= exec sample_memory)
        = Some m'
        ∧ m' !! 103 = Some 10.
Proof.
  destruct (bzero_writes_only_the_range marking_native msvc_tu) with
    (m := sample_memory) (buf := 100) (n := 3) (fuel := 17%nat)
    as [Hrun _].
  - apply marking_native_preserves. by repeat constructor.
  - reflexivity.
  - reflexivity.
  - intros x Hx. by split_members Hx.
  - lia.
  - lia.
  - destruct Hrun as (m' & Hrun & Hout & _).
    + intros i Hi.
      assert (i = 0 ∨ i = 1 ∨ i = 2) as [-> | [-> | ->]] by lia;
        vm_compute; eauto.
    + exists m'. split; [exact Hrun |].
      rewrite Hout; [reflexivity | lia].
Defined.
